(** * DiscordVoiceBotDemo: the audio relay and the voice bot

    A shallow embedding of the event-driven programs of the repository:

    - [Relay]: the broadcast server of [server/src/index.ts], which keeps the
      two sets [botClients] and [webClients] and forwards every message of a
      web client to the bot clients that are open;
    - [Bot]: the Discord bot, which connects to the relay as a bot client,
      reconnects five seconds after every close, and pushes every frame it
      receives into the audio streams made by the join-voice-channel command;
    - [Site]: the page of [site/src/App.tsx], which records the microphone
      and sends the chunks to the relay.

    Each program runs on a single event loop: a listener runs to completion
    before the next event is dispatched.  A program is therefore a state
    together with a total function [step] that runs the listeners of one
    event; the closures the source registers are the constructors of a
    [Listener] type, stored on the object they were registered on. *)

From stdpp Require Import base decidable option list strings.
From Stdlib Require Import ZArith Lia.

(** A binary payload: the bytes of one WebSocket message. *)
Definition Data : Type := list Byte.byte.

(** A line handed to the pino logger: level and message (the object logged
    with it is left out). *)
Inductive Level := LInfo | LDebug | LError.

#[global] Instance Level_eq_dec : EqDecision Level.
Proof. solve_decision. Defined.

Definition LogLine : Type := Level * string.

(** Closes a decidable goal about concrete data by evaluating its decision. *)
Ltac by_decide := refine (bool_decide_unpack _ _); vm_compute; exact I.

(** JavaScript's [Set], for object identities numbered by [nat]: iteration is
    in insertion order, [add] of a member changes nothing. *)
Definition Set_add (x : nat) (s : list nat) : list nat :=
  if decide (x ∈ s) then s else s ++ [x].

Definition Set_delete (x : nat) (s : list nat) : list nat :=
  filter (λ y, y ≠ x) s.

(** [URLSearchParams.get]: the value of the first pair named [name], or
    [None] (JavaScript's [null]) when there is none. *)
Fixpoint searchParams_get (name : string) (q : list (string * string)) : option string :=
  match q with
  | [] => None
  | (k, v) :: q' => if decide (k = name) then Some v else searchParams_get name q'
  end.

(* ===================================================================== *)
(** * The relay: [server/src/index.ts] *)
(* ===================================================================== *)

Module Relay.

(** [WebSocket.readyState] of the ws library. *)
Inductive ReadyState := CONNECTING | OPEN | CLOSING | CLOSED.

#[global] Instance ReadyState_eq_dec : EqDecision ReadyState.
Proof. solve_decision. Defined.

(** The closures that [wss.on("connection")] registers on a socket. *)
Inductive Listener :=
| BotClose      (* lines 103-106: botClients.delete(ws) *)
| WebMessage    (* lines 113-120: the broadcast loop *)
| WebClose      (* lines 122-125: webClients.delete(ws) *)
| LogError.     (* lines 128-130: logger.error *)

#[global] Instance Listener_eq_dec : EqDecision Listener.
Proof. solve_decision. Defined.

(** A server-side WebSocket object: its state, the listeners registered on
    it, and what the relay has done to it ([send] and [close] calls). *)
Record Socket := mkSocket {
  readyState : ReadyState;
  onMessage : list Listener;
  onClose : list Listener;
  onError : list Listener;
  sent : list Data;
  closeCalls : nat }.

(** The relay process.  A socket's identity is its index in [sockets]: every
    connection event brings a new object. *)
Record State := mkState {
  sockets : list Socket;
  botClients : list nat;
  webClients : list nat;
  stopping : bool;
  serverCloseRequested : bool;
  exited : option Z;
  log : list LogLine }.

Definition init : State := mkState [] [] [] false false None [].

Inductive SignalName := SIGHUP | SIGINT | SIGTERM.

#[global] Instance SignalName_eq_dec : EqDecision SignalName.
Proof. solve_decision. Defined.

Definition signal_name (s : SignalName) : string :=
  match s with SIGHUP => "SIGHUP" | SIGINT => "SIGINT" | SIGTERM => "SIGTERM" end.

(** What the event loop can dispatch to the relay:
    - [Connection query]: a WebSocket handshake has completed; [query] holds
      the pairs of [new URL(request.url, ...).searchParams], in their order;
    - [SockMessage ws data]: the message event of socket [ws];
    - [SockClosing ws]: a closing handshake has started on [ws] (no listener
      of the relay is involved);
    - [SockClose ws], [SockError ws error]: the close and error events of [ws];
    - [Signal sig]: one of the three signals the relay listens to;
    - [ServerClose]: the close event of the HTTP server. *)
Inductive Event :=
| Connection (query : list (string * string))
| SockMessage (ws : nat) (data : Data)
| SockClosing (ws : nat)
| SockClose (ws : nat)
| SockError (ws : nat) (error : string)
| Signal (sig : SignalName)
| ServerClose.

(** What a listener is called with. *)
Inductive Payload := PNone | PData (d : Data) | PError (e : string).

Definition with_sockets (f : list Socket → list Socket) (st : State) : State :=
  mkState (f (sockets st)) (botClients st) (webClients st) (stopping st)
          (serverCloseRequested st) (exited st) (log st).

Definition with_botClients (f : list nat → list nat) (st : State) : State :=
  mkState (sockets st) (f (botClients st)) (webClients st) (stopping st)
          (serverCloseRequested st) (exited st) (log st).

Definition with_webClients (f : list nat → list nat) (st : State) : State :=
  mkState (sockets st) (botClients st) (f (webClients st)) (stopping st)
          (serverCloseRequested st) (exited st) (log st).

Definition logger (lv : Level) (msg : string) (st : State) : State :=
  mkState (sockets st) (botClients st) (webClients st) (stopping st)
          (serverCloseRequested st) (exited st) (log st ++ [(lv, msg)]).

(** [ws.send(data)]: the frame is queued on the socket. *)
Definition push_sent (d : Data) (s : Socket) : Socket :=
  mkSocket (readyState s) (onMessage s) (onClose s) (onError s) (sent s ++ [d]) (closeCalls s).

Definition send (ws : nat) (d : Data) (st : State) : State :=
  with_sockets (alter (push_sent d) ws) st.

(** [ws.close()]: an open socket starts its closing handshake. *)
Definition closing (s : Socket) : Socket :=
  mkSocket (if decide (readyState s = OPEN) then CLOSING else readyState s)
           (onMessage s) (onClose s) (onError s) (sent s) (closeCalls s).

Definition close_called (s : Socket) : Socket :=
  mkSocket (readyState (closing s)) (onMessage s) (onClose s) (onError s) (sent s)
           (S (closeCalls s)).

Definition set_closed (s : Socket) : Socket :=
  mkSocket CLOSED (onMessage s) (onClose s) (onError s) (sent s) (closeCalls s).

Definition is_open (st : State) (ws : nat) : bool :=
  match sockets st !! ws with
  | Some s => bool_decide (readyState s = OPEN)
  | None => false
  end.

(** Lines 115-119: the loop over [botClients]. *)
Definition broadcast (d : Data) (st : State) : State :=
  foldl (λ acc botClient, if is_open acc botClient then send botClient d acc else acc)
        st (botClients st).

(** The body of each closure; [ws] is the socket it was registered on. *)
Definition call (l : Listener) (ws : nat) (p : Payload) (st : State) : State :=
  match l with
  | BotClose =>
      with_botClients (Set_delete ws) (logger LInfo "Bot client disconnected" st)
  | WebMessage =>
      match p with PData d => broadcast d st | _ => st end
  | WebClose =>
      with_webClients (Set_delete ws) (logger LInfo "Web client disconnected" st)
  | LogError =>
      logger LError "WebSocket error" st
  end.

(** [ws.emit(event, payload)]: the listeners registered for the event run in
    the order of their registration. *)
Definition emit (ws : nat) (which : Socket → list Listener) (p : Payload) (st : State) : State :=
  match sockets st !! ws with
  | Some s => foldl (λ acc l, call l ws p acc) st (which s)
  | None => st
  end.

(** Lines 93-131: the connection listener. *)
Definition on_connection (query : list (string * string)) (st : State) : State :=
  let ws := length (sockets st) in
  let clientType := searchParams_get "type" query in
  if decide (clientType = Some "bot") then
    with_botClients (Set_add ws)
      (logger LInfo "New bot client connected"
        (with_sockets (λ l, l ++ [mkSocket OPEN [] [BotClose] [LogError] [] 0]) st))
  else
    with_webClients (Set_add ws)
      (logger LInfo "New web client connected"
        (with_sockets (λ l, l ++ [mkSocket OPEN [WebMessage] [WebClose] [LogError] [] 0]) st)).

(** Lines 141-151: the listener of SIGHUP, SIGINT and SIGTERM.
    [logger.flush()] changes nothing that is modelled.  [server.close()] only
    asks the HTTP server to close: Node emits the server's close event later,
    from the event loop, and [process.exit(0)] ends the process in the same
    turn. *)
Definition on_signal (sig : SignalName) (st : State) : State :=
  if stopping st then st
  else
    let st1 := logger LInfo "exiting..."
                 (logger LInfo ("Received signal " +:+ signal_name sig +:+ ", shutting down...") st) in
    mkState (sockets st1) (botClients st1) (webClients st1) true true (Some 0%Z) (log st1).

(** Lines 155-161: the listener of the server's close event, commented in
    the source as the cleanup on server shutdown. *)
Definition on_server_close (st : State) : State :=
  let st1 := foldl (λ acc client, with_sockets (alter close_called client) acc)
                   st (webClients st ++ botClients st) in
  with_botClients (λ _, []) (with_webClients (λ _, []) st1).

(** One turn of the event loop.  A process that has exited runs nothing; the
    HTTP server emits its close event only after [server.close()].  The ws
    library hands a socket to the connection listener in state [OPEN] and
    sets it to [CLOSED] just before it emits its close event. *)
Definition step (e : Event) (st : State) : State :=
  match exited st with
  | Some _ => st
  | None =>
      match e with
      | Connection query => on_connection query st
      | SockMessage ws d => emit ws onMessage (PData d) st
      | SockClosing ws => with_sockets (alter closing ws) st
      | SockClose ws => emit ws onClose PNone (with_sockets (alter set_closed ws) st)
      | SockError ws err => emit ws onError (PError err) st
      | Signal sig => on_signal sig st
      | ServerClose => if serverCloseRequested st then on_server_close st else st
      end
  end.

Definition run (tr : list Event) (st : State) : State :=
  foldl (λ acc e, step e acc) st tr.

(** ** What the facts about the relay are stated with *)

(** The loop of lines 115-119 over any list of clients. *)
Definition forward_to (d : Data) (l : list nat) (st : State) : State :=
  foldl (λ acc botClient, if is_open acc botClient then send botClient d acc else acc) st l.

(** What one pass of the loop does to a socket that it visits. *)
Definition deliver (d : Data) (s : Socket) : Socket :=
  if bool_decide (readyState s = OPEN) then push_sent d s else s.

(** The two shapes a socket can have: what the bot branch and what the web
    branch of the connection listener register. *)
Definition bot_socket (s : Socket) : Prop :=
  onMessage s = [] ∧ onClose s = [BotClose] ∧ onError s = [LogError].

Definition web_socket (s : Socket) : Prop :=
  onMessage s = [WebMessage] ∧ onClose s = [WebClose] ∧ onError s = [LogError].

(** What holds in every state the relay can reach: the sets have no
    duplicates and hold sockets of their own branch that have not closed,
    every open socket is in the set of its branch, the relay has called
    [close] on no socket, and a process that is stopping has exited. *)
Record Inv (st : State) : Prop := mkInv {
  inv_nodup_bot : NoDup (botClients st);
  inv_nodup_web : NoDup (webClients st);
  inv_kind : ∀ ws s, sockets st !! ws = Some s → bot_socket s ∨ web_socket s;
  inv_bot : ∀ ws, ws ∈ botClients st →
    ∃ s, sockets st !! ws = Some s ∧ bot_socket s ∧ readyState s ≠ CLOSED;
  inv_web : ∀ ws, ws ∈ webClients st →
    ∃ s, sockets st !! ws = Some s ∧ web_socket s ∧ readyState s ≠ CLOSED;
  inv_open_bot : ∀ ws s, sockets st !! ws = Some s → readyState s = OPEN →
    bot_socket s → ws ∈ botClients st;
  inv_open_web : ∀ ws s, sockets st !! ws = Some s → readyState s = OPEN →
    web_socket s → ws ∈ webClients st;
  inv_quiet : ∀ ws s, sockets st !! ws = Some s → closeCalls s = 0;
  inv_exit : exited st = None ∨ exited st = Some 0%Z;
  inv_stopping : stopping st = true → exited st = Some 0%Z;
  inv_close_requested : serverCloseRequested st = true → exited st = Some 0%Z }.

(** [s'] is [s] after steps that change at most what was sent to it, and
    its state from open to closing. *)
Definition socket_evolves (s s' : Socket) : Prop :=
  onMessage s' = onMessage s ∧ onClose s' = onClose s ∧ onError s' = onError s ∧
  closeCalls s' = closeCalls s ∧
  (readyState s' = readyState s ∨ (readyState s = OPEN ∧ readyState s' = CLOSING)).

Definition sockets_evolve (l l' : list Socket) : Prop :=
  ∀ ws, match l !! ws, l' !! ws with
        | Some s, Some s' => socket_evolves s s'
        | None, None => True
        | _, _ => False
        end.

(** The events of a list of messages, each with the socket it arrived on. *)
Definition messages (msgs : list (nat * Data)) : list Event :=
  map (λ m, SockMessage m.1 m.2) msgs.

(** An open socket with the frames [ds] queued after what it had. *)
Definition deliver_all (ds : list Data) (s : Socket) : Socket :=
  if bool_decide (readyState s = OPEN)
  then mkSocket (readyState s) (onMessage s) (onClose s) (onError s) (sent s ++ ds)
                (closeCalls s)
  else s.

Definition F1 : Data := [Byte.x01; Byte.x02; Byte.x03].
Definition F2 : Data := [Byte.x04; Byte.x05].

(** Two consumers and a producer connect; the second consumer starts to
    close. *)
Definition two_consumers : list Event :=
  [Connection [("type", "bot")]; Connection [("type", "bot")]; Connection [];
   SockClosing 1].

(** A consumer and a producer are connected when SIGTERM arrives. *)
Definition before_signal : list Event := [Connection [("type", "bot")]; Connection []].

(** ** What the further facts about the relay are stated with *)

(** The payloads of the message events of a history, in their order. *)
Definition payloads (tr : list Event) : list Data :=
  omap (λ e, match e with SockMessage _ d => Some d | _ => None end) tr.

(** A socket is tracked when one of the two sets holds it. *)
Definition tracked (st : State) (ws : nat) : Prop :=
  ws ∈ botClients st ∨ ws ∈ webClients st.

End Relay.

(* ===================================================================== *)
(** * The bot: the connector, the join-voice-channel command, the player *)
(* ===================================================================== *)

Module Bot.

(** Line 49. *)
Definition WS_URL : string := "ws://localhost:8080?type=bot".

(** Lines 40-43: what the emitter's audio event carries. *)
Record AudioData := mkAudioData {
  userId : string;
  audioBuffer : Data }.

(** The closures that [connectToWebSocket] registers on its socket. *)
Inductive WsListener :=
| LogOpen             (* lines 56-58 *)
| EmitAudio           (* lines 60-68 *)
| LogWsError          (* lines 70-72 *)
| ScheduleReconnect.  (* lines 74-81 *)

(** A client-side WebSocket object of the connector. *)
Record ClientSocket := mkClientSocket {
  url : string;
  onOpen : list WsListener;
  onMessage : list WsListener;
  onError : list WsListener;
  onClose : list WsListener }.

(** The only timer callback of the program (lines 77-80). *)
Inductive TimerCallback := Reconnect.

(** A timer made by [setTimeout]: times are in milliseconds. *)
Record Timer := mkTimer {
  callback : TimerCallback;
  delay : N;
  due : N;
  pending : bool }.

(** The locals of one run of the command handler that got past its guard:
    the voice connection it joined, its [audioQueue] and its [audioStream],
    the latter as the list of data events emitted on it.  The audio resource
    made from the stream is named by the pipeline's index. *)
Record Pipeline := mkPipeline {
  connection : nat;
  audioQueue : list Data;
  audioStream : list Data }.

(** The closures the handler registers on a voice connection and on the
    global audio player. *)
Inductive ConnListener :=
| LogConnState                    (* lines 139-143 *)
| LogConnError                    (* lines 194-197 *)
| PlayOnReady (resource : nat).   (* lines 203-211 *)

Inductive PlayerListener :=
| LogPlayerState    (* lines 145-149 *)
| LogPlayerError.   (* lines 189-192 *)

(** The channel option of an interaction, as far as the guard reads it. *)
Record Channel := mkChannel {
  channelId : string;
  isGuildVoice : bool;       (* channel.type === ChannelType.GuildVoice *)
  isVoiceChannel : bool }.   (* channel instanceof VoiceChannel *)

(** The bot process.  [sockets] holds every WebSocket the connector made,
    [audioListeners] the audio listeners of the global emitter in the order
    of their registration, each named by the pipeline whose stream it
    feeds. *)
Record State := mkState {
  sockets : list ClientSocket;
  timers : list Timer;
  now : N;
  audioListeners : list nat;
  pipelines : list Pipeline;
  connListeners : list (nat * ConnListener);
  playerListeners : list PlayerListener;
  subscriptions : list nat;
  playCalls : list nat;
  replies : list string;
  log : list LogLine }.

(** What the event loop can dispatch to the bot: the four events of a
    connector socket; the passing of time and the firing of a timer; an
    interaction, with the channel option it carries and the voice connection
    that [joinVoiceChannel] would return for it; the events of a voice
    connection and of the audio player.  [failing] lists the resources for
    which [audioPlayer.play] throws at that moment. *)
Inductive Event :=
| WsOpen (ws : nat)
| WsMessage (ws : nat) (data : Data)
| WsError (ws : nat) (error : string)
| WsClose (ws : nat)
| Elapse (ms : N)
| TimerFire (timer : nat)
| Interaction (isChatInput : bool) (commandName : string) (channel : Channel) (joined : nat)
| ConnStateChange (conn : nat) (oldStatus newStatus : string)
| ConnReady (conn : nat) (failing : list nat)
| ConnError (conn : nat)
| PlayerStateChange (oldStatus newStatus : string)
| PlayerError.

Definition with_sockets (f : list ClientSocket → list ClientSocket) (st : State) : State :=
  mkState (f (sockets st)) (timers st) (now st) (audioListeners st) (pipelines st)
          (connListeners st) (playerListeners st) (subscriptions st) (playCalls st)
          (replies st) (log st).

Definition with_timers (f : list Timer → list Timer) (st : State) : State :=
  mkState (sockets st) (f (timers st)) (now st) (audioListeners st) (pipelines st)
          (connListeners st) (playerListeners st) (subscriptions st) (playCalls st)
          (replies st) (log st).

Definition with_now (f : N → N) (st : State) : State :=
  mkState (sockets st) (timers st) (f (now st)) (audioListeners st) (pipelines st)
          (connListeners st) (playerListeners st) (subscriptions st) (playCalls st)
          (replies st) (log st).

Definition with_audioListeners (f : list nat → list nat) (st : State) : State :=
  mkState (sockets st) (timers st) (now st) (f (audioListeners st)) (pipelines st)
          (connListeners st) (playerListeners st) (subscriptions st) (playCalls st)
          (replies st) (log st).

Definition with_pipelines (f : list Pipeline → list Pipeline) (st : State) : State :=
  mkState (sockets st) (timers st) (now st) (audioListeners st) (f (pipelines st))
          (connListeners st) (playerListeners st) (subscriptions st) (playCalls st)
          (replies st) (log st).

Definition with_connListeners
    (f : list (nat * ConnListener) → list (nat * ConnListener)) (st : State) : State :=
  mkState (sockets st) (timers st) (now st) (audioListeners st) (pipelines st)
          (f (connListeners st)) (playerListeners st) (subscriptions st) (playCalls st)
          (replies st) (log st).

Definition with_playerListeners
    (f : list PlayerListener → list PlayerListener) (st : State) : State :=
  mkState (sockets st) (timers st) (now st) (audioListeners st) (pipelines st)
          (connListeners st) (f (playerListeners st)) (subscriptions st) (playCalls st)
          (replies st) (log st).

Definition with_subscriptions (f : list nat → list nat) (st : State) : State :=
  mkState (sockets st) (timers st) (now st) (audioListeners st) (pipelines st)
          (connListeners st) (playerListeners st) (f (subscriptions st)) (playCalls st)
          (replies st) (log st).

Definition with_playCalls (f : list nat → list nat) (st : State) : State :=
  mkState (sockets st) (timers st) (now st) (audioListeners st) (pipelines st)
          (connListeners st) (playerListeners st) (subscriptions st) (f (playCalls st))
          (replies st) (log st).

Definition reply (content : string) (st : State) : State :=
  mkState (sockets st) (timers st) (now st) (audioListeners st) (pipelines st)
          (connListeners st) (playerListeners st) (subscriptions st) (playCalls st)
          (replies st ++ [content]) (log st).

Definition logger (lv : Level) (msg : string) (st : State) : State :=
  mkState (sockets st) (timers st) (now st) (audioListeners st) (pipelines st)
          (connListeners st) (playerListeners st) (subscriptions st) (playCalls st)
          (replies st) (log st ++ [(lv, msg)]).

(** Lines 52-82: [connectToWebSocket]. *)
Definition connectToWebSocket (st : State) : State :=
  with_sockets
    (λ l, l ++ [mkClientSocket WS_URL [LogOpen] [EmitAudio] [LogWsError] [ScheduleReconnect]])
    (logger LDebug "connecting to websocket" st).

(** [setTimeout(cb, ms)]. *)
Definition setTimeout (cb : TimerCallback) (ms : N) (st : State) : State :=
  with_timers (λ l, l ++ [mkTimer cb ms (now st + ms) true]) st.

(** Lines 62-67: the object handed to [emitter.emit]; [Buffer.from] keeps
    the bytes. *)
Definition audio_of_message (data : Data) : AudioData :=
  mkAudioData "websocket-audio" data.

(** [audioStream.emit("data", chunk)] on the stream of pipeline [k]. *)
Definition push_data (chunk : Data) (p : Pipeline) : Pipeline :=
  mkPipeline (connection p) (audioQueue p) (audioStream p ++ [chunk]).

(** Lines 168-175: the audio listener of pipeline [k]. *)
Definition audio_listener (k : nat) (a : AudioData) (st : State) : State :=
  with_pipelines (alter (push_data (audioBuffer a)) k) st.

(** [emitter.emit("audio", a)]. *)
Definition emit_audio (a : AudioData) (st : State) : State :=
  foldl (λ acc k, audio_listener k a acc) st (audioListeners st).

Inductive WsPayload := WNone | WData (d : Data) | WErr (e : string).

Definition call_ws (l : WsListener) (p : WsPayload) (st : State) : State :=
  match l with
  | LogOpen => logger LInfo "WebSocket connection established" st
  | EmitAudio =>
      match p with WData d => emit_audio (audio_of_message d) st | _ => st end
  | LogWsError => logger LError "WebSocket connection error" st
  | ScheduleReconnect =>
      setTimeout Reconnect 5000 (logger LInfo "WebSocket connection closed" st)
  end.

Definition emit_ws (ws : nat) (which : ClientSocket → list WsListener) (p : WsPayload)
    (st : State) : State :=
  match sockets st !! ws with
  | Some s => foldl (λ acc l, call_ws l p acc) st (which s)
  | None => st
  end.

Definition run_callback (cb : TimerCallback) (st : State) : State :=
  match cb with
  | Reconnect => connectToWebSocket (logger LInfo "Attempting to reconnect..." st)
  end.

Definition mark_fired (t : Timer) : Timer :=
  mkTimer (callback t) (delay t) (due t) false.

(** The event loop runs a timer's callback once, not before it is due. *)
Definition fire (i : nat) (st : State) : State :=
  match timers st !! i with
  | Some t =>
      if pending t && bool_decide (due t ≤ now st)%N
      then run_callback (callback t) (with_timers (alter mark_fired i) st)
      else st
  | None => st
  end.

(** Lines 114-217: the handler of join-voice-channel.  [joined] is the voice
    connection that [joinVoiceChannel] returns. *)
Definition join_handler (ch : Channel) (joined : nat) (st : State) : State :=
  let st := logger LDebug ("got join-voice-channel for channel: " +:+ channelId ch) st in
  if negb (isGuildVoice ch) || negb (isVoiceChannel ch) then
    reply "ERROR: can only set this to a voice channel!" st
  else
    let k := length (pipelines st) in
    let st := with_connListeners (λ l, l ++ [(joined, LogConnState)]) st in
    let st := with_playerListeners (λ l, l ++ [LogPlayerState]) st in
    let st := with_pipelines (λ l, l ++ [mkPipeline joined [] []]) st in
    let st := with_audioListeners (λ l, l ++ [k]) st in
    let st := with_playerListeners (λ l, l ++ [LogPlayerError]) st in
    let st := with_connListeners (λ l, l ++ [(joined, LogConnError)]) st in
    let st := with_subscriptions (λ l, l ++ [joined]) st in
    let st := with_connListeners (λ l, l ++ [(joined, PlayOnReady k)]) st in
    reply ("Joined voice channel <#" +:+ channelId ch +:+ ">! Now listening for audio.") st.

(** Lines 221-228: only chat-input interactions that name a command of the
    table reach a handler, and the table has the one command. *)
Definition on_interaction (isChatInput : bool) (commandName : string) (ch : Channel)
    (joined : nat) (st : State) : State :=
  if isChatInput then
    let st := logger LDebug ("got interaction: " +:+ commandName) st in
    if decide (commandName = "join-voice-channel") then join_handler ch joined st else st
  else st.

(** The body of a connection listener.  [failing] names the resources for
    which [audioPlayer.play] throws. *)
Definition call_conn (l : ConnListener) (statuses : string * string) (failing : list nat)
    (st : State) : State :=
  match l with
  | LogConnState =>
      logger LInfo ("Connection transitioned from " +:+ statuses.1 +:+ " to " +:+ statuses.2) st
  | LogConnError => logger LError "Error in connection" st
  | PlayOnReady r =>
      let st := logger LDebug "Connection is ready, starting playback" st in
      if decide (r ∈ failing) then logger LError "Error playing audio" st
      else with_playCalls (λ l, l ++ [r]) st
  end.

Definition is_ready_listener (l : ConnListener) : bool :=
  match l with PlayOnReady _ => true | _ => false end.

Definition is_state_listener (l : ConnListener) : bool :=
  match l with LogConnState => true | _ => false end.

Definition is_error_listener (l : ConnListener) : bool :=
  match l with LogConnError => true | _ => false end.

(** [connection.emit(event, ...)]: the listeners registered on [conn] for the
    event, in the order of their registration. *)
Definition emit_conn (conn : nat) (which : ConnListener → bool) (statuses : string * string)
    (failing : list nat) (st : State) : State :=
  foldl (λ acc cl, if bool_decide (cl.1 = conn) && which cl.2
                   then call_conn cl.2 statuses failing acc else acc)
        st (connListeners st).

Definition call_player (l : PlayerListener) (statuses : string * string) (st : State) : State :=
  match l with
  | LogPlayerState =>
      logger LInfo ("Audio player transitioned from " +:+ statuses.1 +:+ " to " +:+ statuses.2) st
  | LogPlayerError => logger LError "Error in audio player" st
  end.

Definition is_player_state_listener (l : PlayerListener) : bool :=
  match l with LogPlayerState => true | LogPlayerError => false end.

Definition emit_player (which : PlayerListener → bool) (statuses : string * string)
    (st : State) : State :=
  foldl (λ acc l, if which l then call_player l statuses acc else acc)
        st (playerListeners st).

(** One turn of the bot's event loop. *)
Definition step (e : Event) (st : State) : State :=
  match e with
  | WsOpen ws => emit_ws ws onOpen WNone st
  | WsMessage ws d => emit_ws ws onMessage (WData d) st
  | WsError ws err => emit_ws ws onError (WErr err) st
  | WsClose ws => emit_ws ws onClose WNone st
  | Elapse ms => with_now (λ t, (t + ms)%N) st
  | TimerFire i => fire i st
  | Interaction isChatInput commandName ch joined =>
      on_interaction isChatInput commandName ch joined st
  | ConnStateChange conn o n => emit_conn conn is_state_listener (o, n) [] st
  | ConnReady conn failing => emit_conn conn is_ready_listener ("", "") failing st
  | ConnError conn => emit_conn conn is_error_listener ("", "") [] st
  | PlayerStateChange o n => emit_player is_player_state_listener (o, n) st
  | PlayerError => emit_player (λ l, negb (is_player_state_listener l)) ("", "") st
  end.

Definition run (tr : list Event) (st : State) : State :=
  foldl (λ acc e, step e acc) st tr.

(** The state after the module's top level has run: line 85 has called
    [connectToWebSocket] once.  The log holds the lines of the connector, of
    the command handler and of the listeners; the dependency report of line 37
    is left out. *)
Definition init : State :=
  connectToWebSocket (mkState [] [] 0%N [] [] [] [] [] [] [] []).


(** ** What the facts about the bot are stated with *)

(** The socket that every call of [connectToWebSocket] makes. *)
Definition connector_socket : ClientSocket :=
  mkClientSocket WS_URL [LogOpen] [EmitAudio] [LogWsError] [ScheduleReconnect].

(** [emitter.emit] over any list of listeners. *)
Definition emit_to (a : AudioData) (ks : list nat) (st : State) : State :=
  foldl (λ acc k, audio_listener k a acc) st ks.

(** What holds in every state the bot can reach: every socket is the
    connector's, every timer is a reconnect timer of 5000 ms, the audio
    listeners are one for each pipeline, in order, no [audioQueue] holds
    anything, and a ready listener plays the resource of a pipeline that
    joined the connection it listens to. *)
Record WellFormed (st : State) : Prop := mkWellFormed {
  inv_sockets : ∀ ws s, sockets st !! ws = Some s → s = connector_socket;
  inv_timers : ∀ i t, timers st !! i = Some t → callback t = Reconnect ∧ delay t = 5000%N;
  inv_listeners : audioListeners st = seq 0 (length (pipelines st));
  inv_queue : ∀ k p, pipelines st !! k = Some p → audioQueue p = [];
  inv_ready : ∀ c r, (c, PlayOnReady r) ∈ connListeners st →
    ∃ p, pipelines st !! r = Some p ∧ connection p = c }.

(** A close, five seconds, and the timer that the close made. *)
Definition reconnect_cycle (ws timer : nat) : list Event :=
  [WsClose ws; Elapse 5000; TimerFire timer].

(** [n] closes in a row, each of the latest socket, each followed by the
    reconnect it schedules. *)
Definition reconnect_cycles (n : nat) : list Event :=
  flat_map (λ k, reconnect_cycle k k) (seq 0 n).






(** An interaction that reaches the handler with a channel that passes its
    guard. *)
Definition accepted_join (e : Event) : bool :=
  match e with
  | Interaction true name ch _ =>
      bool_decide (name = "join-voice-channel") && isGuildVoice ch && isVoiceChannel ch
  | _ => false
  end.

Definition joins (tr : list Event) : nat := length (filter accepted_join tr).

Definition listener_view (st : State) : list nat * nat :=
  (audioListeners st, length (pipelines st)).

(** ** What the further facts about the bot are stated with *)



(** An interaction that reaches the handler of join-voice-channel. *)
Definition invoked (e : Event) : bool :=
  match e with
  | Interaction true name _ _ => bool_decide (name = "join-voice-channel")
  | _ => false
  end.

(** Line 123. *)
Definition refusal : string := "ERROR: can only set this to a voice channel!".

(** The resources of the pipelines that joined [conn], oldest first, when
    the first pipeline of [ps] has index [k]. *)
Fixpoint resources_from (k conn : nat) (ps : list Pipeline) : list nat :=
  match ps with
  | [] => []
  | p :: ps' =>
      (if decide (connection p = conn) then [k] else []) ++ resources_from (S k) conn ps'
  end.

Definition resources_of (conn : nat) (ps : list Pipeline) : list nat :=
  resources_from 0 conn ps.

(** The ready listeners registered on [conn], as the resources they play. *)
Definition ready_resources (conn : nat) (l : list (nat * ConnListener)) : list nat :=
  omap (λ cl, match cl.2 with
              | PlayOnReady r => if decide (cl.1 = conn) then Some r else None
              | _ => None
              end) l.

(** The listeners that [n] accepted joins leave on the audio player. *)
Definition player_listeners_of (n : nat) : list PlayerListener :=
  flat_map (λ _, [LogPlayerState; LogPlayerError]) (seq 0 n).

End Bot.

(* ===================================================================== *)
(** * The page: [site/src/App.tsx] *)
(* ===================================================================== *)

Module Site.

(** [WebSocket.readyState] in the browser. *)
Inductive ReadyState := CONNECTING | OPEN | CLOSING | CLOSED.

#[global] Instance ReadyState_eq_dec : EqDecision ReadyState.
Proof. solve_decision. Defined.

(** A WebSocket made at line 14: its state, the chunks handed to [send] and
    the [close] calls of the page. *)
Record Socket := mkSocket {
  url : string;
  readyState : ReadyState;
  sent : list Data;
  closeCalls : nat }.

(** A MediaStream: for each of its tracks, whether it is still live. *)
Definition MediaStream : Type := list bool.

(** A MediaRecorder with the handler of lines 31-50 on it: the stream it
    records and the socket the handler closes over. *)
Record Recorder := mkRecorder {
  source : nat;
  target : nat }.

Inductive ConsoleLine := ConsoleLog (msg : string) | ConsoleError (msg : string).

(** The component: its state [isRecording], its two refs, the objects it
    has made, and the calls of [getUserMedia] that have not settled. *)
Record State := mkState {
  isRecording : bool;
  websocketRef : option nat;
  mediaStreamRef : option nat;
  sockets : list Socket;
  streams : list MediaStream;
  recorders : list Recorder;
  pendingMedia : nat;
  console : list ConsoleLine }.

Definition init : State := mkState false None None [] [] [] 0 [].

(** Where the body of [startStreaming] throws after [getUserMedia] has
    resolved, if it does, and whether what is thrown is a DOMException. *)
Inductive Outcome :=
| Started
| RecorderThrows (isDOMException : bool)   (* new MediaRecorder, line 18 *)
| StartThrows (isDOMException : bool).     (* mediaRecorder.start, line 52 *)

(** What the browser can dispatch to the page: a click on the button; the
    settling of a [getUserMedia] call, with the number of tracks of the
    stream; a chunk of a recorder; the open and close events of a socket. *)
Inductive Event :=
| Click
| MediaGranted (tracks : nat) (outcome : Outcome)
| MediaDenied (isDOMException : bool)
| DataAvailable (recorder : nat) (chunk : Data)
| SocketOpened (ws : nat)
| SocketClosed (ws : nat).

Definition with_sockets (f : list Socket → list Socket) (st : State) : State :=
  mkState (isRecording st) (websocketRef st) (mediaStreamRef st) (f (sockets st))
          (streams st) (recorders st) (pendingMedia st) (console st).

Definition with_console (f : list ConsoleLine → list ConsoleLine) (st : State) : State :=
  mkState (isRecording st) (websocketRef st) (mediaStreamRef st) (sockets st)
          (streams st) (recorders st) (pendingMedia st) (f (console st)).

(** Lines 54-64: the catch block. *)
Definition catch_error (isDOMException : bool) (st : State) : State :=
  with_console
    (λ l, l ++ [ConsoleError "Error starting stream:"] ++
          (if isDOMException then [ConsoleError "MediaRecorder error details:"] else []))
    st.

(** [ws.send(chunk)]. *)
Definition push_sent (chunk : Data) (s : Socket) : Socket :=
  mkSocket (url s) (readyState s) (sent s ++ [chunk]) (closeCalls s).

(** [ws.close()]: a socket that is connecting or open starts to close. *)
Definition close_called (s : Socket) : Socket :=
  mkSocket (url s)
           (match readyState s with CONNECTING | OPEN => CLOSING | r => r end)
           (sent s) (S (closeCalls s)).

Definition set_state (r : ReadyState) (s : Socket) : Socket :=
  mkSocket (url s) r (sent s) (closeCalls s).

Definition is_open (st : State) (ws : nat) : bool :=
  match sockets st !! ws with
  | Some s => bool_decide (readyState s = OPEN)
  | None => false
  end.

(** Lines 31-50: the handler of a recorder's chunks. *)
Definition ondataavailable (r : Recorder) (chunk : Data) (st : State) : State :=
  if bool_decide (0 < length chunk) && is_open st (target r)
  then with_sockets (alter (push_sent chunk) (target r)) st
  else st.

(** Lines 11-53: [startStreaming] from the point where [getUserMedia] has
    resolved with a stream of [tracks] live tracks. *)
Definition startStreaming_granted (tracks : nat) (outcome : Outcome) (st : State) : State :=
  let stream := length (streams st) in
  let ws := length (sockets st) in
  let st1 :=
    mkState (isRecording st) (Some ws) (Some stream)
            (sockets st ++ [mkSocket "ws://localhost:8080" CONNECTING [] 0])
            (streams st ++ [replicate tracks true]) (recorders st)
            (pendingMedia st) (console st) in
  let made (st2 : State) : State :=
    mkState (isRecording st2) (websocketRef st2) (mediaStreamRef st2) (sockets st2)
            (streams st2) (recorders st2 ++ [mkRecorder stream ws]) (pendingMedia st2)
            (console st2 ++ [ConsoleLog "made media recorder";
                             ConsoleLog "MediaRecorder configured with:"]) in
  match outcome with
  | RecorderThrows dom => catch_error dom st1
  | StartThrows dom => catch_error dom (made st1)
  | Started =>
      let st2 := made st1 in
      mkState true (websocketRef st2) (mediaStreamRef st2) (sockets st2) (streams st2)
              (recorders st2) (pendingMedia st2) (console st2)
  end.

(** Lines 67-79: [stopStreaming]. *)
Definition stopStreaming (st : State) : State :=
  let sockets' :=
    match websocketRef st with
    | Some ws => alter close_called ws (sockets st)
    | None => sockets st
    end in
  let streams' :=
    match mediaStreamRef st with
    | Some m => alter (fmap (λ _, false)) m (streams st)
    | None => streams st
    end in
  mkState false None None sockets' streams' (recorders st) (pendingMedia st) (console st).

(** One turn of the page's event loop.  The button calls [stopStreaming]
    when [isRecording] is set and [startStreaming] otherwise, which runs up to
    its [await]; a socket opens only while it is connecting. *)
Definition step (e : Event) (st : State) : State :=
  match e with
  | Click =>
      if isRecording st then stopStreaming st
      else mkState (isRecording st) (websocketRef st) (mediaStreamRef st) (sockets st)
                   (streams st) (recorders st) (S (pendingMedia st)) (console st)
  | MediaGranted tracks outcome =>
      match pendingMedia st with
      | 0 => st
      | S n =>
          startStreaming_granted tracks outcome
            (mkState (isRecording st) (websocketRef st) (mediaStreamRef st) (sockets st)
                     (streams st) (recorders st) n (console st))
      end
  | MediaDenied dom =>
      match pendingMedia st with
      | 0 => st
      | S n =>
          catch_error dom
            (mkState (isRecording st) (websocketRef st) (mediaStreamRef st) (sockets st)
                     (streams st) (recorders st) n (console st))
      end
  | DataAvailable r chunk =>
      match recorders st !! r with
      | Some rec => ondataavailable rec chunk st
      | None => st
      end
  | SocketOpened ws =>
      with_sockets
        (alter (λ s, if decide (readyState s = CONNECTING) then set_state OPEN s else s) ws) st
  | SocketClosed ws => with_sockets (alter (set_state CLOSED) ws) st
  end.

Definition run (tr : list Event) (st : State) : State :=
  foldl (λ acc e, step e acc) st tr.

(** ** What the facts about the page are stated with *)

(** A socket on which nothing can be sent any more. *)
Definition finished (s : Socket) : Prop :=
  readyState s = CLOSING ∨ readyState s = CLOSED.

(** What holds in every state the page can reach. *)
Record Inv (st : State) : Prop := mkInv {
  inv_ws : ∀ ws, websocketRef st = Some ws → ws < length (sockets st);
  inv_media : ∀ m, mediaStreamRef st = Some m → m < length (streams st);
  inv_both : websocketRef st = None ↔ mediaStreamRef st = None;
  inv_recording : isRecording st = true → websocketRef st ≠ None;
  inv_chunks : ∀ ws s, sockets st !! ws = Some s → Forall (λ d, d ≠ []) (sent s);
  inv_connecting : ∀ ws s, sockets st !! ws = Some s → readyState s = CONNECTING →
    sent s = [];
  inv_ref_unclosed : ∀ ws s, websocketRef st = Some ws → sockets st !! ws = Some s →
    closeCalls s = 0;
  inv_closed_once : ∀ ws s, sockets st !! ws = Some s → closeCalls s ≤ 1;
  inv_close_finishes : ∀ ws s, sockets st !! ws = Some s → closeCalls s = 1 → finished s }.

(** A start that fails in the recorder, a second start that works, chunks,
    and a stop. *)
Definition session : list Event :=
  [Click; MediaGranted 1 (RecorderThrows true); Click; MediaGranted 2 Started;
   SocketOpened 1; SocketOpened 0; DataAvailable 0 [Byte.x01]; DataAvailable 0 [];
   DataAvailable 0 [Byte.x02]].

End Site.

(* ===================================================================== *)
(** * Facts about the relay *)
(* ===================================================================== *)

Module RelayProofs.
Import Relay.

(** ** The registry sets *)

Lemma elem_of_Set_add (x y : nat) (s : list nat) :
  y ∈ Set_add x s ↔ y = x ∨ y ∈ s.
Proof.
  unfold Set_add. case_decide as Hx.
  - split; [by right | intros [-> | ?]; done].
  - rewrite elem_of_app, list_elem_of_singleton. tauto.
Qed.

Lemma NoDup_Set_add (x : nat) (s : list nat) : NoDup s → NoDup (Set_add x s).
Proof.
  intros Hs. unfold Set_add. case_decide as Hx; [done |].
  apply NoDup_app. split_and!; [done | | apply NoDup_singleton].
  intros y Hy Hy'. apply list_elem_of_singleton in Hy'. by subst.
Qed.

Lemma elem_of_Set_delete (x y : nat) (s : list nat) :
  y ∈ Set_delete x s ↔ y ≠ x ∧ y ∈ s.
Proof. unfold Set_delete. by rewrite list_elem_of_filter. Qed.

Lemma NoDup_Set_delete (x : nat) (s : list nat) : NoDup s → NoDup (Set_delete x s).
Proof. apply NoDup_filter. Qed.

(** ** The broadcast loop *)

Lemma forward_to_frame (d : Data) (l : list nat) (st : State) :
  let st' := forward_to d l st in
  botClients st' = botClients st ∧ webClients st' = webClients st ∧
  stopping st' = stopping st ∧ serverCloseRequested st' = serverCloseRequested st ∧
  exited st' = exited st ∧ log st' = log st ∧
  length (sockets st') = length (sockets st).
Proof.
  revert st. induction l as [| c l IH]; intros st; simpl; [done |].
  specialize (IH (if is_open st c then send c d st else st)).
  simpl in IH. unfold forward_to in *.
  destruct (is_open st c); simpl in *; [| done].
  rewrite length_alter in IH. done.
Qed.

Lemma forward_to_lookup (d : Data) (l : list nat) (st : State) (c : nat) :
  NoDup l →
  sockets (forward_to d l st) !! c =
    if decide (c ∈ l) then deliver d <$> sockets st !! c else sockets st !! c.
Proof.
  revert st. induction l as [| a l IH]; intros st Hnd.
  - case_decide as H; [by apply elem_of_nil in H | done].
  - apply NoDup_cons in Hnd as [Ha Hnd].
    change (forward_to d (a :: l) st)
      with (forward_to d l (if is_open st a then send a d st else st)).
    rewrite IH by done. clear IH.
    destruct (decide (c = a)) as [-> | Hne].
    + rewrite decide_False by done. rewrite decide_True by left.
      unfold is_open. destruct (sockets st !! a) as [s |] eqn:Hs; simpl; [| done].
      unfold deliver. destruct (bool_decide (readyState s = OPEN)); simpl; [| done].
      by rewrite list_lookup_alter_eq, Hs.
    + assert (sockets (if is_open st a then send a d st else st) !! c = sockets st !! c) as ->.
      { destruct (is_open st a); [| done]. simpl. by apply list_lookup_alter_ne. }
      destruct (decide (c ∈ l)) as [Hc | Hc].
      * rewrite decide_True by (by right). done.
      * rewrite decide_False; [done |]. rewrite elem_of_cons. tauto.
Qed.

Lemma forward_to_noop (d : Data) (l : list nat) (st : State) :
  (∀ c, c ∈ l → is_open st c = false) → forward_to d l st = st.
Proof.
  revert st. induction l as [| a l IH]; intros st H; [done |].
  unfold forward_to in *. simpl. rewrite (H a) by left.
  apply IH. intros c Hc. apply H. by right.
Qed.

Lemma broadcast_forward_to (d : Data) (st : State) :
  broadcast d st = forward_to d (botClients st) st.
Proof. reflexivity. Qed.

(** ** The invariant of the reachable states *)

Lemma bot_not_web (s : Socket) : bot_socket s → web_socket s → False.
Proof. intros [H _] [H' _]. congruence. Qed.

Lemma Inv_init : Inv init.
Proof.
  split; simpl; try done; try (intros ws H; by apply elem_of_nil in H);
    try apply NoDup_nil_2; auto.
Qed.

Lemma member_lt (st : State) (ws : nat) :
  Inv st → ws ∈ botClients st ∨ ws ∈ webClients st → ws < length (sockets st).
Proof.
  intros HI [H | H].
  - destruct (inv_bot _ HI _ H) as (s & Hs & _). by eapply lookup_lt_Some.
  - destruct (inv_web _ HI _ H) as (s & Hs & _). by eapply lookup_lt_Some.
Qed.

Lemma Inv_on_connection (q : list (string * string)) (st : State) :
  Inv st → exited st = None → Inv (on_connection q st).
Proof.
  intros HI Hex. unfold on_connection.
  assert (Hfresh : ∀ ws, ws ∈ botClients st ∨ ws ∈ webClients st →
                         ws ≠ length (sockets st)).
  { intros ws H. apply (member_lt _ _ HI) in H. lia. }
  assert (Hsnoc : ∀ new ws s, (sockets st ++ [new]) !! ws = Some s →
            sockets st !! ws = Some s ∨ (ws = length (sockets st) ∧ s = new)).
  { intros new ws s H. apply lookup_snoc_Some in H as [[_ H] | [-> ->]]; [by left | by right]. }
  assert (Hold : ∀ new ws, ws ∈ botClients st ∨ ws ∈ webClients st →
            (sockets st ++ [new]) !! ws = sockets st !! ws).
  { intros new ws H. apply lookup_app_l. by eapply member_lt. }
  destruct HI. case_decide; split; simpl; auto using NoDup_Set_add.
  all: try (intros ws s Hs; apply Hsnoc in Hs as [Hs | [-> ->]];
            [eauto | first [by left | by right | done]]).
  all: try (intros ws Hws; try apply elem_of_Set_add in Hws as [-> | Hws];
            [ eexists; split; [by apply list_lookup_middle |]; done
            | rewrite Hold by auto; auto ]).
  all: try (intros ws Hws; rewrite Hold by auto; auto).
  all: try (intros ws s Hs Hop Hk; apply Hsnoc in Hs as [Hs | [-> ->]];
            try apply elem_of_Set_add; eauto;
            exfalso; destruct Hk as [Hk _]; simpl in Hk; congruence).
Qed.

Lemma Inv_evolve (st st' : State) :
  Inv st →
  botClients st' = botClients st → webClients st' = webClients st →
  stopping st' = stopping st → serverCloseRequested st' = serverCloseRequested st →
  exited st' = exited st →
  sockets_evolve (sockets st) (sockets st') →
  Inv st'.
Proof.
  intros [] Hb Hw Hs Hc He Hev.
  assert (Hback : ∀ ws s', sockets st' !! ws = Some s' →
            ∃ s, sockets st !! ws = Some s ∧ socket_evolves s s').
  { intros ws s' H. specialize (Hev ws). rewrite H in Hev.
    destruct (sockets st !! ws) as [s |]; [eauto | done]. }
  assert (Hforth : ∀ ws s, sockets st !! ws = Some s →
            ∃ s', sockets st' !! ws = Some s' ∧ socket_evolves s s').
  { intros ws s H. specialize (Hev ws). rewrite H in Hev.
    destruct (sockets st' !! ws) as [s' |]; [eauto | done]. }
  split; rewrite ?Hb, ?Hw, ?Hs, ?Hc, ?He; try done.
  - intros ws s' H. apply Hback in H as (s & H & E1 & E2 & E3 & _).
    unfold bot_socket, web_socket. rewrite E1, E2, E3. eauto.
  - intros ws H. destruct (inv_bot0 ws H) as (s & Hs' & Hk & Hr).
    destruct (Hforth _ _ Hs') as (s' & Hs'' & E1 & E2 & E3 & _ & E5).
    exists s'. unfold bot_socket. rewrite E1, E2, E3.
    split; [done |]. split; [done |].
    destruct E5 as [E5 | [_ E5]]; rewrite E5; done.
  - intros ws H. destruct (inv_web0 ws H) as (s & Hs' & Hk & Hr).
    destruct (Hforth _ _ Hs') as (s' & Hs'' & E1 & E2 & E3 & _ & E5).
    exists s'. unfold web_socket. rewrite E1, E2, E3.
    split; [done |]. split; [done |].
    destruct E5 as [E5 | [_ E5]]; rewrite E5; done.
  - intros ws s' H Hop Hk. apply Hback in H as (s & H & E1 & E2 & E3 & _ & E5).
    apply (inv_open_bot0 ws s H).
    + destruct E5 as [<- | [_ E5]]; congruence.
    + unfold bot_socket in *. by rewrite <- E1, <- E2, <- E3.
  - intros ws s' H Hop Hk. apply Hback in H as (s & H & E1 & E2 & E3 & _ & E5).
    apply (inv_open_web0 ws s H).
    + destruct E5 as [<- | [_ E5]]; congruence.
    + unfold web_socket in *. by rewrite <- E1, <- E2, <- E3.
  - intros ws s' H. apply Hback in H as (s & H & _ & _ & _ & E4 & _).
    rewrite E4. eauto.
Qed.

Lemma socket_evolves_refl (s : Socket) : socket_evolves s s.
Proof. unfold socket_evolves. split_and!; auto. Qed.

Lemma sockets_evolve_alter (f : Socket → Socket) (i : nat) (l : list Socket) :
  (∀ s, socket_evolves s (f s)) → sockets_evolve l (alter f i l).
Proof.
  intros Hf ws. destruct (decide (i = ws)) as [-> | Hne].
  - rewrite list_lookup_alter_eq. destruct (l !! ws); simpl; auto.
  - rewrite list_lookup_alter_ne by done. destruct (l !! ws); auto using socket_evolves_refl.
Qed.

Lemma sockets_evolve_forward_to (d : Data) (l : list nat) (st : State) :
  NoDup l → sockets_evolve (sockets st) (sockets (forward_to d l st)).
Proof.
  intros Hnd ws. rewrite forward_to_lookup by done.
  case_decide; destruct (sockets st !! ws) as [s |]; simpl; auto using socket_evolves_refl.
  unfold deliver, socket_evolves. case_bool_decide; simpl; split_and!; auto.
Qed.

Lemma Inv_logger (lv : Level) (msg : string) (st : State) : Inv st → Inv (logger lv msg st).
Proof. intros []. by split. Qed.

Lemma Inv_broadcast (d : Data) (st : State) : Inv st → Inv (broadcast d st).
Proof.
  intros HI. rewrite broadcast_forward_to.
  pose proof (forward_to_frame d (botClients st) st) as (? & ? & ? & ? & ? & ? & ?).
  apply (Inv_evolve st); try done.
  apply sockets_evolve_forward_to, HI.
Qed.

Lemma Inv_close_bot (ws : nat) (s : Socket) (st : State) :
  Inv st → sockets st !! ws = Some s → bot_socket s →
  Inv (with_botClients (Set_delete ws) (with_sockets (alter set_closed ws) st)).
Proof.
  intros HI Hs Hk. destruct HI.
  assert (Hnw : ws ∉ webClients st).
  { intros H. destruct (inv_web0 ws H) as (s' & Hs' & Hk' & _).
    rewrite Hs in Hs'. injection Hs' as <-. by eapply bot_not_web. }
  split; simpl; auto using NoDup_Set_delete.
  - intros ws' s'. rewrite list_lookup_alter. case_decide as E; [subst ws' | eauto].
    rewrite Hs. simpl. intros [= <-]. by left.
  - intros ws' [Hne Hin]%elem_of_Set_delete.
    rewrite list_lookup_alter_ne by done. auto.
  - intros ws' Hin. rewrite list_lookup_alter_ne by (intros ->; done). auto.
  - intros ws' s'. rewrite list_lookup_alter. case_decide as E; [subst ws' |].
    + rewrite Hs. simpl. intros [= <-]. done.
    + intros H1 H2 H3. apply elem_of_Set_delete. eauto.
  - intros ws' s'. rewrite list_lookup_alter. case_decide as E; [subst ws' | eauto].
    rewrite Hs. simpl. intros [= <-]. done.
  - intros ws' s'. rewrite list_lookup_alter. case_decide as E; [subst ws' | eauto].
    rewrite Hs. simpl. intros [= <-]. simpl. eauto.
Qed.

Lemma Inv_close_web (ws : nat) (s : Socket) (st : State) :
  Inv st → sockets st !! ws = Some s → web_socket s →
  Inv (with_webClients (Set_delete ws) (with_sockets (alter set_closed ws) st)).
Proof.
  intros HI Hs Hk. destruct HI.
  assert (Hnb : ws ∉ botClients st).
  { intros H. destruct (inv_bot0 ws H) as (s' & Hs' & Hk' & _).
    rewrite Hs in Hs'. injection Hs' as <-. by eapply bot_not_web. }
  split; simpl; auto using NoDup_Set_delete.
  - intros ws' s'. rewrite list_lookup_alter. case_decide as E; [subst ws' | eauto].
    rewrite Hs. simpl. intros [= <-]. by right.
  - intros ws' Hin. rewrite list_lookup_alter_ne by (intros ->; done). auto.
  - intros ws' [Hne Hin]%elem_of_Set_delete.
    rewrite list_lookup_alter_ne by done. auto.
  - intros ws' s'. rewrite list_lookup_alter. case_decide as E; [subst ws' | eauto].
    rewrite Hs. simpl. intros [= <-]. done.
  - intros ws' s'. rewrite list_lookup_alter. case_decide as E; [subst ws' |].
    + rewrite Hs. simpl. intros [= <-]. done.
    + intros H1 H2 H3. apply elem_of_Set_delete. eauto.
  - intros ws' s'. rewrite list_lookup_alter. case_decide as E; [subst ws' | eauto].
    rewrite Hs. simpl. intros [= <-]. simpl. eauto.
Qed.

(** What each event turns into on a socket of either shape. *)
Lemma emit_message_bot (ws : nat) (s : Socket) (d : Data) (st : State) :
  sockets st !! ws = Some s → bot_socket s → emit ws onMessage (PData d) st = st.
Proof. intros Hs [Hm _]. unfold emit. by rewrite Hs, Hm. Qed.

Lemma emit_message_web (ws : nat) (s : Socket) (d : Data) (st : State) :
  sockets st !! ws = Some s → web_socket s →
  emit ws onMessage (PData d) st = broadcast d st.
Proof. intros Hs [Hm _]. unfold emit. by rewrite Hs, Hm. Qed.

Lemma emit_error (ws : nat) (s : Socket) (err : string) (st : State) :
  sockets st !! ws = Some s → bot_socket s ∨ web_socket s →
  emit ws onError (PError err) st = logger LError "WebSocket error" st.
Proof. intros Hs [(_ & _ & He) | (_ & _ & He)]; unfold emit; by rewrite Hs, He. Qed.

Lemma emit_close_bot (ws : nat) (s : Socket) (st : State) :
  sockets st !! ws = Some s → bot_socket s →
  emit ws onClose PNone (with_sockets (alter set_closed ws) st) =
  logger LInfo "Bot client disconnected"
    (with_botClients (Set_delete ws) (with_sockets (alter set_closed ws) st)).
Proof.
  intros Hs (_ & Hc & _). unfold emit. simpl.
  by rewrite list_lookup_alter_eq, Hs; simpl; rewrite Hc.
Qed.

Lemma emit_close_web (ws : nat) (s : Socket) (st : State) :
  sockets st !! ws = Some s → web_socket s →
  emit ws onClose PNone (with_sockets (alter set_closed ws) st) =
  logger LInfo "Web client disconnected"
    (with_webClients (Set_delete ws) (with_sockets (alter set_closed ws) st)).
Proof.
  intros Hs (_ & Hc & _). unfold emit. simpl.
  by rewrite list_lookup_alter_eq, Hs; simpl; rewrite Hc.
Qed.

Lemma emit_unknown (ws : nat) (which : Socket → list Listener) (p : Payload) (st : State) :
  sockets st !! ws = None → emit ws which p st = st.
Proof. intros Hs. unfold emit. by rewrite Hs. Qed.

Lemma alter_unknown (f : Socket → Socket) (ws : nat) (st : State) :
  sockets st !! ws = None → with_sockets (alter f ws) st = st.
Proof.
  intros Hs. destruct st. unfold with_sockets. simpl in *. f_equal.
  apply list_eq. intros i. rewrite list_lookup_alter. case_decide; [subst; by rewrite Hs | done].
Qed.

Lemma Inv_step (e : Event) (st : State) : Inv st → Inv (step e st).
Proof.
  intros HI. unfold step. destruct (exited st) eqn:Hex; [done |].
  destruct e as [q | ws d | ws | ws | ws err | sig |].
  - by apply Inv_on_connection.
  - destruct (sockets st !! ws) as [s |] eqn:Hs.
    + destruct (inv_kind _ HI _ _ Hs) as [Hk | Hk].
      * by rewrite (emit_message_bot ws s).
      * rewrite (emit_message_web ws s) by done. by apply Inv_broadcast.
    + by rewrite emit_unknown.
  - apply (Inv_evolve st); try done. simpl. apply sockets_evolve_alter.
    intros s. unfold socket_evolves, closing. simpl. case_decide; split_and!; auto.
  - destruct (sockets st !! ws) as [s |] eqn:Hs.
    + destruct (inv_kind _ HI _ _ Hs) as [Hk | Hk].
      * rewrite (emit_close_bot ws s) by done. by eapply Inv_logger, Inv_close_bot.
      * rewrite (emit_close_web ws s) by done. by eapply Inv_logger, Inv_close_web.
    + rewrite alter_unknown by done. by rewrite emit_unknown.
  - destruct (sockets st !! ws) as [s |] eqn:Hs.
    + rewrite (emit_error ws s) by eauto using inv_kind. by apply Inv_logger.
    + by rewrite emit_unknown.
  - unfold on_signal. destruct (stopping st); [done |].
    destruct HI. split; simpl; auto.
  - destruct (serverCloseRequested st) eqn:Hc; [| done].
    apply (inv_close_requested _ HI) in Hc. congruence.
Qed.

Lemma run_snoc (tr : list Event) (e : Event) (st : State) :
  run (tr ++ [e]) st = step e (run tr st).
Proof. unfold run. by rewrite foldl_app. Qed.

Lemma run_app (tr tr' : list Event) (st : State) :
  run (tr ++ tr') st = run tr' (run tr st).
Proof. unfold run. by rewrite foldl_app. Qed.

Lemma Inv_run (tr : list Event) (st : State) : Inv st → Inv (run tr st).
Proof.
  revert st. induction tr as [| e tr IH]; intros st HI; [done |].
  apply IH. by apply Inv_step.
Qed.

Lemma Inv_reachable (tr : list Event) : Inv (run tr init).
Proof. apply Inv_run, Inv_init. Qed.

(** ** Messages *)

Lemma step_web_message (ws : nat) (d : Data) (st : State) :
  Inv st → exited st = None → ws ∈ webClients st →
  step (SockMessage ws d) st = forward_to d (botClients st) st.
Proof.
  intros HI Hex Hws. unfold step. rewrite Hex.
  destruct (inv_web _ HI _ Hws) as (s & Hs & Hk & _).
  by rewrite (emit_message_web ws s).
Qed.

Lemma step_bot_message (ws : nat) (d : Data) (st : State) :
  Inv st → ws ∈ botClients st → step (SockMessage ws d) st = st.
Proof.
  intros HI Hws. unfold step. destruct (exited st); [done |].
  destruct (inv_bot _ HI _ Hws) as (s & Hs & Hk & _).
  by rewrite (emit_message_bot ws s).
Qed.

Lemma deliver_all_nil (s : Socket) : deliver_all [] s = s.
Proof.
  unfold deliver_all. case_bool_decide; [| done].
  destruct s. simpl. by rewrite app_nil_r.
Qed.

Lemma deliver_all_cons (d : Data) (ds : list Data) (s : Socket) :
  deliver_all ds (deliver d s) = deliver_all (d :: ds) s.
Proof.
  unfold deliver_all, deliver. destruct (decide (readyState s = OPEN)) as [Ho | Ho].
  - rewrite (bool_decide_true (readyState s = OPEN)) by done. simpl.
    rewrite bool_decide_true by done. by rewrite <- app_assoc.
  - by rewrite !(bool_decide_false (readyState s = OPEN)) by done.
Qed.

Lemma run_web_messages (msgs : list (nat * Data)) (st : State) :
  Inv st → exited st = None →
  Forall (λ m, m.1 ∈ webClients st) msgs →
  let st' := run (messages msgs) st in
  botClients st' = botClients st ∧ webClients st' = webClients st ∧
  exited st' = None ∧ log st' = log st ∧
  ∀ c, sockets st' !! c =
       if decide (c ∈ botClients st) then deliver_all (map snd msgs) <$> sockets st !! c
       else sockets st !! c.
Proof.
  revert st. induction msgs as [| [p d] msgs IH]; intros st HI Hex Hall; simpl.
  - split_and!; try done. intros c. case_decide; [| done].
    destruct (sockets st !! c); simpl; by rewrite ?deliver_all_nil.
  - apply Forall_cons in Hall as [Hp Hall]. simpl in Hp.
    pose proof (step_web_message p d st HI Hex Hp) as Hstep.
    pose proof (forward_to_frame d (botClients st) st) as (Eb & Ew & _ & _ & Ee & El & _).
    rewrite <- Hstep in Eb, Ew, Ee, El.
    specialize (IH (step (SockMessage p d) st)).
    destruct IH as (Ib & Iw & Ie & Il & Is).
    { by apply Inv_step. }
    { congruence. }
    { by rewrite Ew. }
    fold (messages msgs). fold (run (messages msgs) (step (SockMessage p d) st)).
    split_and!; try congruence.
    intros c. rewrite Is, Eb, Hstep, forward_to_lookup by apply HI.
    case_decide; [| done].
    destruct (sockets st !! c); simpl; by rewrite ?deliver_all_cons.
Qed.

(** C1: a message of a producer is queued, byte for byte, on every consumer
    that is open, and on no other socket; the sets, the log and the flags stay
    as they are.  When no consumer is open the state does not change at all.
    Over any run of producer messages every open consumer gets the frames in
    the order of their arrival. *)
Theorem broadcast_to_open_consumers
    (tr : list Event) (ws : nat) (d : Data) (msgs : list (nat * Data)) :
  let st := run tr init in
  exited st = None →
  ws ∈ webClients st →
  Forall (λ m, m.1 ∈ webClients st) msgs →
  let st' := step (SockMessage ws d) st in
  (∀ c s, c ∈ botClients st → sockets st !! c = Some s → readyState s = OPEN →
     sockets st' !! c = Some (push_sent d s)) ∧
  (∀ c, ¬ (c ∈ botClients st ∧ is_open st c = true) →
     sockets st' !! c = sockets st !! c) ∧
  botClients st' = botClients st ∧ webClients st' = webClients st ∧
  log st' = log st ∧ exited st' = None ∧ stopping st' = stopping st ∧
  length (sockets st') = length (sockets st) ∧
  ((∀ c, c ∈ botClients st → is_open st c = false) → st' = st) ∧
  (∀ c s, c ∈ botClients st → sockets st !! c = Some s → readyState s = OPEN →
     ∃ s', sockets (run (messages msgs) st) !! c = Some s' ∧
           sent s' = sent s ++ map snd msgs ∧ readyState s' = OPEN).
Proof.
  intros st Hex Hws Hall st'.
  assert (HI : Inv st) by apply Inv_reachable.
  assert (Hstep : st' = forward_to d (botClients st) st) by by apply step_web_message.
  pose proof (forward_to_frame d (botClients st) st) as (Eb & Ew & Es & _ & Ee & El & Elen).
  rewrite <- Hstep in Eb, Ew, Es, Ee, El, Elen.
  split_and!; try congruence.
  - intros c s Hc Hs Ho. rewrite Hstep, forward_to_lookup by apply HI.
    rewrite decide_True, Hs by done. simpl. unfold deliver.
    by rewrite bool_decide_true.
  - intros c Hc. rewrite Hstep, forward_to_lookup by apply HI.
    case_decide as Hin; [| done].
    unfold is_open in Hc. destruct (sockets st !! c) as [s |]; [| done]. simpl.
    unfold deliver. case_bool_decide; [| done]. exfalso. apply Hc. by split.
  - intros Hnone. rewrite Hstep. by apply forward_to_noop.
  - intros c s Hc Hs Ho.
    destruct (run_web_messages msgs st HI Hex Hall) as (_ & _ & _ & _ & Hl).
    rewrite Hl, decide_True, Hs by done. simpl.
    eexists. split; [done |]. unfold deliver_all. by rewrite bool_decide_true.
Qed.

Lemma broadcast_to_open_consumers_witness :
  sockets (step (SockMessage 2 F1) (run two_consumers init)) !! 0 =
    Some (mkSocket OPEN [] [BotClose] [LogError] [F1] 0) ∧
  sockets (step (SockMessage 2 F1) (run two_consumers init)) !! 1 =
    Some (mkSocket CLOSING [] [BotClose] [LogError] [] 0) ∧
  ∃ s', sockets (run (messages [(2, F1); (2, F2)]) (run two_consumers init)) !! 0 = Some s' ∧
        sent s' = [F1; F2] ∧ readyState s' = OPEN.
Proof.
  destruct (broadcast_to_open_consumers two_consumers 2 F1 [(2, F1); (2, F2)])
    as (H1 & H2 & _ & _ & _ & _ & _ & _ & _ & H3).
  - reflexivity.
  - by_decide.
  - by_decide.
  - split; [| split].
    + apply (H1 0 (mkSocket OPEN [] [BotClose] [LogError] [] 0));
        [by_decide | reflexivity | reflexivity].
    + rewrite (H2 1); [reflexivity |]. intros [_ H]. vm_compute in H. discriminate.
    + apply (H3 0 (mkSocket OPEN [] [BotClose] [LogError] [] 0));
        [by_decide | reflexivity | reflexivity].
Defined.

(** ** Classification *)



(** ** The registry over the life of the process *)





(** C10: a socket of [botClients] has no message listener, so a message that
    arrives on it changes nothing: after any number of such messages the
    state of the relay, with every socket's queue and both sets, is the state
    before them; a socket that has the message listener is no consumer. *)
Theorem consumer_messages_discarded (tr : list Event) (msgs : list (nat * Data)) :
  let st := run tr init in
  Forall (λ m, m.1 ∈ botClients st) msgs →
  run (messages msgs) st = st ∧
  (∀ ws s, sockets st !! ws = Some s → onMessage s ≠ [] → ws ∉ botClients st).
Proof.
  intros st Hall. assert (HI : Inv st) by apply Inv_reachable. split.
  - induction Hall as [| [ws d] msgs Hws _ IH]; [done |].
    simpl in *. by rewrite step_bot_message.
  - intros ws s Hs Hm Hin.
    destruct (inv_bot _ HI _ Hin) as (s' & Hs' & (Hm' & _) & _). congruence.
Qed.

Lemma consumer_messages_discarded_witness :
  run (messages [(0, F1); (1, F2); (0, F2)]) (run two_consumers init) =
  run two_consumers init.
Proof.
  apply (consumer_messages_discarded two_consumers [(0, F1); (1, F2); (0, F2)]).
  by_decide.
Defined.

(** ** Shutdown *)

(** The listener of the server's close event does close every tracked socket
    and clear both sets, when it runs. *)
Lemma on_server_close_clears (st : State) :
  botClients (on_server_close st) = [] ∧ webClients (on_server_close st) = [].
Proof. done. Qed.

(** In no reachable state has the relay called [close] on a socket: the
    listener of the server's close event has never run. *)
Lemma cleanup_never_runs (tr : list Event) (ws : nat) (s : Socket) :
  sockets (run tr init) !! ws = Some s → closeCalls s = 0.
Proof. apply (inv_quiet _ (Inv_reachable tr)). Qed.

(** A signal ends a running process with code 0, once: every later event,
    a second signal among them, finds the process gone. *)
Lemma signal_one_shot (tr tr' : list Event) (sig : SignalName) :
  let st := run tr init in
  exited st = None →
  let st' := step (Signal sig) st in
  exited st' = Some 0%Z ∧ stopping st' = true ∧ run tr' st' = st'.
Proof.
  intros st Hex st'. assert (HI : Inv st) by apply Inv_reachable.
  assert (Hst : stopping st = false).
  { destruct (stopping st) eqn:E; [| done]. apply (inv_stopping _ HI) in E. congruence. }
  assert (He : exited st' = Some 0%Z).
  { unfold st', step. rewrite Hex. unfold on_signal. by rewrite Hst. }
  split_and!; [done | |].
  - unfold st', step. rewrite Hex. unfold on_signal. by rewrite Hst.
  - induction tr' as [| e tr' IH]; [done |].
    change (run (e :: tr') st') with (run tr' (step e st')).
    assert (step e st' = st') as -> by (unfold step at 1; by rewrite He). done.
Qed.

(** C7, on the run above: the process exits with code 0 and ignores what
    comes later, but both sets still hold their sockets, the sockets are
    still open and [close] was called on none of them. *)
Theorem signal_exits_before_cleanup :
  let st := run before_signal init in
  let st' := step (Signal SIGTERM) st in
  exited st' = Some 0%Z ∧ stopping st' = true ∧
  botClients st' = [0] ∧ webClients st' = [1] ∧
  sockets st' = [mkSocket OPEN [] [BotClose] [LogError] [] 0;
                 mkSocket OPEN [WebMessage] [WebClose] [LogError] [] 0] ∧
  step ServerClose st' = st' ∧ step (Signal SIGINT) st' = st' ∧
  botClients (on_server_close st') = [] ∧ webClients (on_server_close st') = [] ∧
  sockets (on_server_close st') =
    [mkSocket CLOSING [] [BotClose] [LogError] [] 1;
     mkSocket CLOSING [WebMessage] [WebClose] [LogError] [] 1].
Proof. vm_compute. by split_and!. Qed.

(** ** Further facts: what a step does to the sockets *)

Lemma step_sockets (e : Event) (st : State) :
  Inv st →
  sockets (step e st) = sockets st ∨
  (∃ q new, e = Connection q ∧ exited st = None ∧
     sockets (step e st) = sockets st ++ [new] ∧ sent new = [] ∧ readyState new = OPEN ∧
     (bot_socket new ∨ web_socket new)) ∨
  (∃ p d, e = SockMessage p d ∧
     sockets (step e st) = sockets (forward_to d (botClients st) st)) ∨
  (∃ w, e = SockClosing w ∧ sockets (step e st) = alter closing w (sockets st)) ∨
  (∃ w, e = SockClose w ∧ exited st = None ∧
     sockets (step e st) = alter set_closed w (sockets st)).
Proof.
  intros HI. unfold step. destruct (exited st) eqn:Hex; [by left |].
  destruct e as [q | ws d | ws | ws | ws err | sig |].
  - right. left. unfold on_connection. case_decide; simpl; eexists q, _;
      (split_and!; [done | done | done | done | done |]); [by left | by right].
  - destruct (sockets st !! ws) as [s |] eqn:Hs.
    + destruct (inv_kind _ HI _ _ Hs) as [Hk | Hk].
      * left. by rewrite (emit_message_bot ws s).
      * right. right. left. exists ws, d. by rewrite (emit_message_web ws s).
    + left. by rewrite emit_unknown.
  - right. right. right. left. by exists ws.
  - right. right. right. right. exists ws. split_and!; try done.
    destruct (sockets st !! ws) as [s |] eqn:Hs.
    + destruct (inv_kind _ HI _ _ Hs) as [Hk | Hk].
      * by rewrite (emit_close_bot ws s).
      * by rewrite (emit_close_web ws s).
    + pose proof (alter_unknown set_closed ws st Hs) as E.
      rewrite E, emit_unknown by done. apply (f_equal sockets) in E. done.
  - left. destruct (sockets st !! ws) as [s |] eqn:Hs.
    + by rewrite (emit_error ws s) by eauto using inv_kind.
    + by rewrite emit_unknown.
  - left. unfold on_signal. by destruct (stopping st).
  - destruct (serverCloseRequested st) eqn:Hc; [| by left].
    apply (inv_close_requested _ HI) in Hc. congruence.
Qed.

Lemma set_closed_closed (s : Socket) : readyState s = CLOSED → set_closed s = s.
Proof. destruct s. simpl. by intros ->. Qed.

Lemma closing_not_open (s : Socket) : readyState s ≠ OPEN → closing s = s.
Proof. destruct s. unfold closing. simpl. intros H. by rewrite decide_False. Qed.

Lemma deliver_not_open (d : Data) (s : Socket) : readyState s ≠ OPEN → deliver d s = s.
Proof. intros H. unfold deliver. by rewrite bool_decide_false. Qed.

(** A closed socket is beyond every event. *)
Lemma step_closed_frozen (e : Event) (st : State) (ws : nat) (s : Socket) :
  Inv st → sockets st !! ws = Some s → readyState s = CLOSED →
  sockets (step e st) !! ws = Some s.
Proof.
  intros HI Hs Hc.
  destruct (step_sockets e st HI)
    as [-> | [(q & new & _ & _ & -> & _) | [(p & d & _ & ->) | [(w & _ & ->) | (w & _ & _ & ->)]]]].
  - done.
  - rewrite lookup_app_l; [done |]. by eapply lookup_lt_Some.
  - rewrite forward_to_lookup by apply HI. case_decide; [| done].
    rewrite Hs. simpl. rewrite deliver_not_open; [done | congruence].
  - destruct (decide (w = ws)) as [-> | Hne]; [| by rewrite list_lookup_alter_ne].
    rewrite list_lookup_alter_eq, Hs. simpl.
    rewrite closing_not_open; [done | congruence].
  - destruct (decide (w = ws)) as [-> | Hne]; [| by rewrite list_lookup_alter_ne].
    rewrite list_lookup_alter_eq, Hs. simpl. by rewrite set_closed_closed.
Qed.

(** X1: once a socket has closed, nothing that happens later changes it: its
    state stays closed and no further frame is queued on it. *)
Theorem closed_socket_is_left_alone (tr tr' : list Event) (ws : nat) (s : Socket) :
  sockets (run tr init) !! ws = Some s → readyState s = CLOSED →
  sockets (run tr' (run tr init)) !! ws = Some s.
Proof.
  intros Hs Hc. assert (HI : Inv (run tr init)) by apply Inv_reachable.
  revert HI Hs. generalize (run tr init) as st. induction tr' as [| e tr' IH]; intros st HI Hs.
  - done.
  - simpl. apply IH; [by apply Inv_step | by apply step_closed_frozen].
Qed.

Lemma closed_socket_is_left_alone_witness :
  sockets (run [SockMessage 2 F2; SockClosing 0; SockClose 0; SockMessage 2 F1]
             (run (two_consumers ++ [SockMessage 2 F1; SockClose 0]) init)) !! 0 =
  Some (mkSocket CLOSED [] [BotClose] [LogError] [F1] 0).
Proof.
  apply (closed_socket_is_left_alone (two_consumers ++ [SockMessage 2 F1; SockClose 0])).
  - reflexivity.
  - reflexivity.
Defined.


(** How a step changes what was sent to a socket. *)
Lemma step_sent (e : Event) (st : State) (ws : nat) (s' : Socket) :
  Inv st → sockets (step e st) !! ws = Some s' →
  (sockets st !! ws = None ∧ sent s' = []) ∨
  ∃ s, sockets st !! ws = Some s ∧ onMessage s' = onMessage s ∧
       (sent s' = sent s ∨
        ∃ p d, e = SockMessage p d ∧ ws ∈ botClients st ∧ sent s' = sent s ++ [d]).
Proof.
  intros HI.
  destruct (step_sockets e st HI)
    as [-> | [(q & new & _ & _ & -> & Hn & _) | [(p & d & -> & ->) | [(w & _ & ->) | (w & _ & _ & ->)]]]].
  - intros H. right. exists s'. auto.
  - intros [[_ H] | [H <-]]%lookup_snoc_Some.
    + right. exists s'. auto.
    + left. split; [| done]. apply lookup_ge_None_2. lia.
  - rewrite forward_to_lookup by apply HI. case_decide as Hin.
    + destruct (sockets st !! ws) as [s |]; [| done]. simpl. intros [= <-].
      right. exists s. split; [done |]. unfold deliver. case_bool_decide; [| auto].
      split; [done |]. right. by exists p, d.
    + intros H. right. exists s'. auto.
  - destruct (decide (w = ws)) as [-> | Hne].
    + rewrite list_lookup_alter_eq. destruct (sockets st !! ws) as [s |]; [| done].
      simpl. intros [= <-]. right. exists s. auto.
    + rewrite list_lookup_alter_ne by done. intros H. right. exists s'. auto.
  - destruct (decide (w = ws)) as [-> | Hne].
    + rewrite list_lookup_alter_eq. destruct (sockets st !! ws) as [s |]; [| done].
      simpl. intros [= <-]. right. exists s. auto.
    + rewrite list_lookup_alter_ne by done. intros H. right. exists s'. auto.
Qed.

(** X2: the relay never sends anything to a producer: in every reachable
    state the queue of a socket that took the web branch is empty. *)
Theorem producers_receive_nothing (tr : list Event) (ws : nat) (s : Socket) :
  sockets (run tr init) !! ws = Some s → web_socket s → sent s = [].
Proof.
  revert ws s. induction tr as [| e tr IH] using rev_ind; intros ws s; [done |].
  rewrite run_snoc. set (st := run tr init) in *.
  assert (HI : Inv st) by apply Inv_reachable.
  intros Hs Hk. destruct (step_sent e st ws s HI Hs) as [[_ H] | (s0 & Hs0 & Hm & Hsent)]; [done |].
  assert (Hk0 : web_socket s0).
  { destruct (inv_kind _ HI _ _ Hs0) as [[Hb _] | Hw]; [| done].
    destruct Hk as [Hk _]. congruence. }
  destruct Hsent as [-> | (p & d & _ & Hin & _)]; [by eapply IH |].
  destruct (inv_bot _ HI _ Hin) as (s1 & Hs1 & Hb & _).
  rewrite Hs0 in Hs1. injection Hs1 as <-. by destruct (bot_not_web s0).
Qed.

Lemma producers_receive_nothing_witness :
  sent (mkSocket OPEN [WebMessage] [WebClose] [LogError] [] 0) = [] ∧
  sockets (run (two_consumers ++ [SockMessage 2 F1; SockMessage 0 F2]) init) !! 2 =
    Some (mkSocket OPEN [WebMessage] [WebClose] [LogError] [] 0).
Proof.
  split; [| reflexivity].
  apply (producers_receive_nothing (two_consumers ++ [SockMessage 2 F1; SockMessage 0 F2]) 2).
  - reflexivity.
  - by split_and!.
Defined.

(** X3: the relay sends nothing of its own making: what is queued on any
    socket is a subsequence, in the same order, of the payloads of the
    message events the relay has received. *)
Theorem sent_frames_were_received (tr : list Event) (ws : nat) (s : Socket) :
  sockets (run tr init) !! ws = Some s → sent s `sublist_of` payloads tr.
Proof.
  revert ws s. induction tr as [| e tr IH] using rev_ind; intros ws s; [done |].
  rewrite run_snoc. set (st := run tr init) in *.
  assert (HI : Inv st) by apply Inv_reachable.
  intros Hs. unfold payloads. rewrite omap_app. fold (payloads tr).
  destruct (step_sent e st ws s HI Hs) as [[_ ->] | (s0 & Hs0 & _ & Hsent)];
    [apply sublist_nil_l |].
  destruct Hsent as [-> | (p & d & -> & _ & ->)].
  - by apply sublist_inserts_r, (IH ws).
  - simpl. apply sublist_app; [by apply (IH ws) | done].
Qed.

Lemma sent_frames_were_received_witness :
  [F1; F2] `sublist_of`
    payloads (two_consumers ++ [SockMessage 2 F1; SockMessage 0 F1; SockMessage 2 F2]).
Proof.
  apply (sent_frames_were_received
           (two_consumers ++ [SockMessage 2 F1; SockMessage 0 F1; SockMessage 2 F2]) 0
           (mkSocket OPEN [] [BotClose] [LogError] [F1; F2] 0)).
  reflexivity.
Defined.





(** X5: a signal that reaches the running relay is logged, sets [stopping]
    and ends the process with code 0 without touching the sockets or the
    sets; after that no event has any effect, a second signal included. *)
Theorem signal_stops_the_relay (tr tr' : list Event) (sig : SignalName) :
  let st := run tr init in
  exited st = None →
  let st' := step (Signal sig) st in
  exited st' = Some 0%Z ∧ stopping st' = true ∧
  log st' = log st ++
    [(LInfo, "Received signal " +:+ signal_name sig +:+ ", shutting down...");
     (LInfo, "exiting...")] ∧
  sockets st' = sockets st ∧ botClients st' = botClients st ∧
  webClients st' = webClients st ∧
  run tr' st' = st'.
Proof.
  intros st Hex st'.
  destruct (signal_one_shot tr tr' sig Hex) as (He & Hs & Hrun).
  assert (Hst : stopping st = false).
  { destruct (stopping st) eqn:E; [| done].
    apply (inv_stopping _ (Inv_reachable tr)) in E. fold st in E. congruence. }
  split_and!; try done; unfold st', step; rewrite Hex; unfold on_signal; rewrite Hst; simpl;
    try done.
  by rewrite <- app_assoc.
Qed.

Lemma signal_stops_the_relay_witness :
  run [Signal SIGINT; ServerClose; Connection []; SockMessage 2 F1]
      (step (Signal SIGHUP) (run (two_consumers ++ [SockClose 1]) init)) =
  step (Signal SIGHUP) (run (two_consumers ++ [SockClose 1]) init).
Proof.
  apply (signal_stops_the_relay (two_consumers ++ [SockClose 1])
           [Signal SIGINT; ServerClose; Connection []; SockMessage 2 F1] SIGHUP).
  reflexivity.
Defined.

Lemma alter_each_lookup (f : Socket → Socket) (ks : list nat) (l : list Socket) (c : nat) :
  NoDup ks →
  foldl (λ acc k, alter f k acc) l ks !! c =
    if decide (c ∈ ks) then f <$> l !! c else l !! c.
Proof.
  revert l. induction ks as [| k ks IH]; intros l Hnd.
  - case_decide as H; [by apply elem_of_nil in H | done].
  - apply NoDup_cons in Hnd as [Hk Hnd].
    change (foldl (λ acc k0, alter f k0 acc) l (k :: ks))
      with (foldl (λ acc k0, alter f k0 acc) (alter f k l) ks).
    rewrite IH by done. destruct (decide (c = k)) as [-> | Hne].
    + rewrite decide_False by done. rewrite decide_True by left.
      apply list_lookup_alter_eq.
    + rewrite list_lookup_alter_ne by done.
      destruct (decide (c ∈ ks)) as [Hc | Hc].
      * by rewrite decide_True by (by right).
      * rewrite decide_False; [done |]. rewrite elem_of_cons. tauto.
Qed.

Lemma close_all_sockets (ks : list nat) (st : State) :
  foldl (λ acc client, with_sockets (alter close_called client) acc) st ks =
  with_sockets (λ l, foldl (λ acc k, alter close_called k acc) l ks) st.
Proof.
  revert st. induction ks as [| k ks IH]; intros st; [by destruct st |].
  simpl. by rewrite IH.
Qed.

Lemma close_called_not_open (s : Socket) : readyState (close_called s) ≠ OPEN.
Proof. unfold close_called, closing. simpl. by case_decide. Qed.

(** X6: the listener of the server's close event, run in any state the
    relay can reach, calls [close] exactly once on every tracked socket,
    which leaves none of them open, touches no other socket, and empties both
    sets; no socket at all is open afterwards. *)
Theorem server_close_listener_closes_all (tr : list Event) :
  let st := run tr init in
  let st' := on_server_close st in
  botClients st' = [] ∧ webClients st' = [] ∧
  log st' = log st ∧ exited st' = exited st ∧
  (∀ ws s, tracked st ws → sockets st !! ws = Some s →
     sockets st' !! ws = Some (close_called s) ∧ closeCalls (close_called s) = 1) ∧
  (∀ ws, ¬ tracked st ws → sockets st' !! ws = sockets st !! ws) ∧
  (∀ ws s', sockets st' !! ws = Some s' → readyState s' ≠ OPEN).
Proof.
  intros st st'. assert (HI : Inv st) by apply Inv_reachable.
  assert (Hnd : NoDup (webClients st ++ botClients st)).
  { apply NoDup_app. split_and!; [apply HI | | apply HI].
    intros ws Hw Hb.
    destruct (inv_bot _ HI _ Hb) as (s & Hs & Hk & _).
    destruct (inv_web _ HI _ Hw) as (s1 & Hs1 & Hk1 & _).
    rewrite Hs in Hs1. injection Hs1 as <-. by eapply bot_not_web. }
  assert (Hl : ∀ ws, sockets st' !! ws =
            if decide (ws ∈ webClients st ++ botClients st)
            then close_called <$> sockets st !! ws else sockets st !! ws).
  { intros ws. unfold st', on_server_close. rewrite close_all_sockets. simpl.
    by apply alter_each_lookup. }
  assert (Hin : ∀ ws, ws ∈ webClients st ++ botClients st ↔ tracked st ws).
  { intros ws. rewrite elem_of_app. unfold tracked. tauto. }
  split_and!.
  - done.
  - done.
  - unfold st', on_server_close. by rewrite close_all_sockets.
  - unfold st', on_server_close. by rewrite close_all_sockets.
  - intros ws s Ht Hs. rewrite Hl, decide_True, Hs by by apply Hin. simpl.
    split; [done |]. by rewrite (inv_quiet _ HI _ _ Hs).
  - intros ws Ht. rewrite Hl, decide_False; [done |]. by rewrite Hin.
  - intros ws s'. rewrite Hl. case_decide as Ht.
    + destruct (sockets st !! ws) as [s |]; [| done]. simpl. intros [= <-].
      apply close_called_not_open.
    + intros Hs Ho. apply Ht, Hin.
      destruct (inv_kind _ HI _ _ Hs) as [Hk | Hk]; [left | right].
      * by eapply inv_open_bot.
      * by eapply inv_open_web.
Qed.

End RelayProofs.

(* ===================================================================== *)
(** * Facts about the bot *)
(* ===================================================================== *)

Module BotProofs.
Import Bot.

Lemma foldl_preserves {A B C : Type} (f : A → B → A) (g : A → C) (l : list B) (a : A) :
  (∀ a b, g (f a b) = g a) → g (foldl f a l) = g a.
Proof.
  intros Hf. revert a. induction l as [| b l IH]; intros a; [done |].
  simpl. by rewrite IH.
Qed.

Lemma bot_run_snoc (tr : list Event) (e : Event) (st : State) :
  run (tr ++ [e]) st = step e (run tr st).
Proof. unfold run. by rewrite foldl_app. Qed.

Lemma bot_run_app (tr tr' : list Event) (st : State) :
  run (tr ++ tr') st = run tr' (run tr st).
Proof. unfold run. by rewrite foldl_app. Qed.

(** ** The audio listeners *)

Lemma emit_to_pipelines (a : AudioData) (ks : list nat) (st : State) :
  emit_to a ks st =
  with_pipelines (λ l, foldl (λ acc k, alter (push_data (audioBuffer a)) k acc) l ks) st.
Proof.
  revert st. induction ks as [| k ks IH]; intros st.
  - by destruct st.
  - unfold emit_to in *. simpl. by rewrite IH.
Qed.

Lemma foldl_alter_lookup {A : Type} (f : A → A) (ks : list nat) (l : list A) (c : nat) :
  NoDup ks →
  foldl (λ acc k, alter f k acc) l ks !! c =
    if decide (c ∈ ks) then f <$> l !! c else l !! c.
Proof.
  revert l. induction ks as [| k ks IH]; intros l Hnd.
  - case_decide as H; [by apply elem_of_nil in H | done].
  - apply NoDup_cons in Hnd as [Hk Hnd].
    change (foldl (λ acc k0, alter f k0 acc) l (k :: ks))
      with (foldl (λ acc k0, alter f k0 acc) (alter f k l) ks).
    rewrite IH by done. destruct (decide (c = k)) as [-> | Hne].
    + rewrite decide_False by done. rewrite decide_True by left.
      apply list_lookup_alter_eq.
    + rewrite list_lookup_alter_ne by done.
      destruct (decide (c ∈ ks)) as [Hc | Hc].
      * by rewrite decide_True by (by right).
      * rewrite decide_False; [done |]. rewrite elem_of_cons. tauto.
Qed.

Lemma foldl_alter_all {A : Type} (f : A → A) (l : list A) :
  foldl (λ acc k, alter f k acc) l (seq 0 (length l)) = f <$> l.
Proof.
  apply list_eq. intros c. rewrite foldl_alter_lookup by apply NoDup_seq.
  rewrite list_lookup_fmap. case_decide as Hc; [done |].
  rewrite elem_of_seq in Hc. rewrite lookup_ge_None_2 by lia. done.
Qed.

(** ** The invariant of the reachable states *)

Lemma wf_init : WellFormed init.
Proof.
  split; simpl; try done.
  - intros [| ws] s; simpl; [by intros [= <-] | done].
  - intros c r H. by apply elem_of_nil in H.
Qed.

(** The invariant reads neither the clock, nor the log, nor what was played
    or replied. *)
Lemma wf_core (st st' : State) :
  WellFormed st →
  sockets st' = sockets st → timers st' = timers st →
  audioListeners st' = audioListeners st → pipelines st' = pipelines st →
  connListeners st' = connListeners st →
  WellFormed st'.
Proof. intros [] E1 E2 E3 E4 E5. split; rewrite ?E1, ?E2, ?E3, ?E4, ?E5; done. Qed.

(** What each socket event does on a socket of the connector. *)
Lemma step_open (ws : nat) (st : State) :
  WellFormed st → ws < length (sockets st) →
  step (WsOpen ws) st = logger LInfo "WebSocket connection established" st.
Proof.
  intros HI Hws. apply lookup_lt_is_Some_2 in Hws as [s Hs].
  simpl. unfold emit_ws. rewrite Hs. by rewrite (inv_sockets _ HI _ _ Hs).
Qed.

Lemma step_message (ws : nat) (d : Data) (st : State) :
  WellFormed st → ws < length (sockets st) →
  step (WsMessage ws d) st = emit_audio (audio_of_message d) st.
Proof.
  intros HI Hws. apply lookup_lt_is_Some_2 in Hws as [s Hs].
  simpl. unfold emit_ws. rewrite Hs. by rewrite (inv_sockets _ HI _ _ Hs).
Qed.

Lemma step_error (ws : nat) (err : string) (st : State) :
  WellFormed st → ws < length (sockets st) →
  step (WsError ws err) st = logger LError "WebSocket connection error" st.
Proof.
  intros HI Hws. apply lookup_lt_is_Some_2 in Hws as [s Hs].
  simpl. unfold emit_ws. rewrite Hs. by rewrite (inv_sockets _ HI _ _ Hs).
Qed.

Lemma step_close (ws : nat) (st : State) :
  WellFormed st → ws < length (sockets st) →
  step (WsClose ws) st =
  setTimeout Reconnect 5000 (logger LInfo "WebSocket connection closed" st).
Proof.
  intros HI Hws. apply lookup_lt_is_Some_2 in Hws as [s Hs].
  simpl. unfold emit_ws. rewrite Hs. by rewrite (inv_sockets _ HI _ _ Hs).
Qed.

Lemma emit_ws_unknown (ws : nat) (which : ClientSocket → list WsListener) (p : WsPayload)
    (st : State) :
  length (sockets st) ≤ ws → emit_ws ws which p st = st.
Proof. intros H. unfold emit_ws. by rewrite lookup_ge_None_2. Qed.

(** A frame goes to the stream of every pipeline. *)
Lemma emit_audio_all (a : AudioData) (st : State) :
  WellFormed st →
  emit_audio a st = with_pipelines (fmap (push_data (audioBuffer a))) st.
Proof.
  intros HI. unfold emit_audio. fold (emit_to a (audioListeners st) st).
  rewrite emit_to_pipelines, (inv_listeners _ HI).
  unfold with_pipelines. by rewrite foldl_alter_all.
Qed.

Lemma wf_with_pipelines_push (d : Data) (st : State) :
  WellFormed st → WellFormed (with_pipelines (fmap (push_data d)) st).
Proof.
  intros []. split; simpl; try done.
  - by rewrite length_fmap.
  - intros k p. rewrite list_lookup_fmap. destruct (pipelines st !! k) as [p' |] eqn:E; [| done].
    simpl. intros [= <-]. simpl. eauto.
  - intros c r H. destruct (inv_ready0 c r H) as (p & Hp & Hc).
    exists (push_data d p). rewrite list_lookup_fmap, Hp. done.
Qed.

(** The listeners of a voice connection and of the player only log and
    play. *)
Lemma call_conn_core (l : ConnListener) (ss : string * string) (failing : list nat)
    (st : State) :
  let st' := call_conn l ss failing st in
  sockets st' = sockets st ∧ timers st' = timers st ∧ now st' = now st ∧
  audioListeners st' = audioListeners st ∧ pipelines st' = pipelines st ∧
  connListeners st' = connListeners st ∧ playerListeners st' = playerListeners st ∧
  subscriptions st' = subscriptions st ∧ replies st' = replies st.
Proof. destruct l; simpl; try done. by case_decide. Qed.

Lemma emit_conn_core (conn : nat) (which : ConnListener → bool) (ss : string * string)
    (failing : list nat) (st : State) :
  let st' := emit_conn conn which ss failing st in
  sockets st' = sockets st ∧ timers st' = timers st ∧ now st' = now st ∧
  audioListeners st' = audioListeners st ∧ pipelines st' = pipelines st ∧
  connListeners st' = connListeners st ∧ playerListeners st' = playerListeners st ∧
  subscriptions st' = subscriptions st ∧ replies st' = replies st.
Proof.
  unfold emit_conn. generalize (connListeners st) at 1 as l. intros l. simpl.
  split_and!; apply foldl_preserves; intros a [c cl]; simpl;
    destruct (bool_decide (c = conn) && which cl); try done;
    pose proof (call_conn_core cl ss failing a) as H; simpl in H; tauto.
Qed.

Lemma emit_player_core (which : PlayerListener → bool) (ss : string * string) (st : State) :
  let st' := emit_player which ss st in
  sockets st' = sockets st ∧ timers st' = timers st ∧ now st' = now st ∧
  audioListeners st' = audioListeners st ∧ pipelines st' = pipelines st ∧
  connListeners st' = connListeners st ∧ playerListeners st' = playerListeners st ∧
  subscriptions st' = subscriptions st ∧ replies st' = replies st ∧
  playCalls st' = playCalls st.
Proof.
  unfold emit_player. generalize (playerListeners st) at 1 as l. intros l. simpl.
  split_and!; apply foldl_preserves; intros a pl; destruct (which pl); try done;
    by destruct pl.
Qed.

Lemma wf_setTimeout (st : State) : WellFormed st → WellFormed (setTimeout Reconnect 5000 st).
Proof.
  intros []. split; simpl; try done.
  intros i t [[_ H] | [_ <-]]%lookup_snoc_Some; [eauto | done].
Qed.

Lemma wf_logger (lv : Level) (msg : string) (st : State) : WellFormed st → WellFormed (logger lv msg st).
Proof. intros HI. by apply (wf_core st). Qed.

Lemma wf_connectToWebSocket (st : State) : WellFormed st → WellFormed (connectToWebSocket st).
Proof.
  intros []. split; simpl; try done.
  intros ws s [[_ H] | [_ <-]]%lookup_snoc_Some; [eauto | done].
Qed.

Lemma wf_fire (i : nat) (st : State) : WellFormed st → WellFormed (fire i st).
Proof.
  intros HI. unfold fire. destruct (timers st !! i) as [t |] eqn:Ht; [| done].
  destruct (pending t && bool_decide (due t ≤ now st)%N); [| done].
  destruct (inv_timers _ HI _ _ Ht) as [-> _]. simpl.
  apply wf_connectToWebSocket, wf_logger.
  destruct HI. split; simpl; try done.
  intros j t'. rewrite list_lookup_alter. case_decide; [subst j | eauto].
  rewrite Ht. simpl. intros [= <-]. simpl. eauto.
Qed.

(** What the handler does when the channel passes its guard. *)
Lemma join_handler_passes (ch : Channel) (joined : nat) (st : State) :
  isGuildVoice ch = true → isVoiceChannel ch = true →
  let st' := join_handler ch joined st in
  sockets st' = sockets st ∧ timers st' = timers st ∧ now st' = now st ∧
  audioListeners st' = audioListeners st ++ [length (pipelines st)] ∧
  pipelines st' = pipelines st ++ [mkPipeline joined [] []] ∧
  connListeners st' =
    connListeners st ++ [(joined, LogConnState); (joined, LogConnError);
                         (joined, PlayOnReady (length (pipelines st)))] ∧
  playCalls st' = playCalls st.
Proof.
  intros H1 H2. unfold join_handler. rewrite H1, H2. simpl.
  split_and!; try done. by rewrite <- !app_assoc.
Qed.

(** What it does when the channel does not. *)
Lemma join_handler_refuses (ch : Channel) (joined : nat) (st : State) :
  isGuildVoice ch = false ∨ isVoiceChannel ch = false →
  join_handler ch joined st =
  reply "ERROR: can only set this to a voice channel!"
    (logger LDebug ("got join-voice-channel for channel: " +:+ channelId ch) st).
Proof.
  intros H. unfold join_handler.
  destruct (isGuildVoice ch), (isVoiceChannel ch); simpl; try done; by destruct H.
Qed.

Lemma wf_join_handler (ch : Channel) (joined : nat) (st : State) :
  WellFormed st → WellFormed (join_handler ch joined st).
Proof.
  intros HI.
  destruct (isGuildVoice ch) eqn:H1; [destruct (isVoiceChannel ch) eqn:H2 |].
  - destruct (join_handler_passes ch joined st H1 H2) as (E1 & E2 & _ & E3 & E4 & E5 & _).
    destruct HI. split; rewrite ?E1, ?E2, ?E3, ?E4, ?E5; try done.
    + rewrite length_app. simpl. rewrite seq_app. simpl. by rewrite inv_listeners0.
    + intros k p [[_ H] | [_ <-]]%lookup_snoc_Some; [eauto | done].
    + intros c r [H | H]%elem_of_app.
      * destruct (inv_ready0 c r H) as (p & Hp & Hc). exists p. split; [| done].
        rewrite lookup_app_l; [done |]. by eapply lookup_lt_Some.
      * exists (mkPipeline joined [] []). rewrite !elem_of_cons in H.
        destruct H as [H | [H | [H | H]]]; try done; [| by apply elem_of_nil in H].
        injection H as -> ->. split; [| done]. by apply list_lookup_middle.
  - rewrite join_handler_refuses by auto. by apply (wf_core st).
  - rewrite join_handler_refuses by auto. by apply (wf_core st).
Qed.

Lemma wf_step (e : Event) (st : State) : WellFormed st → WellFormed (step e st).
Proof.
  intros HI.
  destruct e as [ws | ws d | ws err | ws | ms | i | chat name ch joined
                 | conn o n | conn failing | conn | o n |].
  - destruct (decide (ws < length (sockets st))).
    + rewrite step_open by done. by apply wf_logger.
    + simpl. rewrite emit_ws_unknown by lia. done.
  - destruct (decide (ws < length (sockets st))).
    + rewrite step_message, emit_audio_all by done. by apply wf_with_pipelines_push.
    + simpl. rewrite emit_ws_unknown by lia. done.
  - destruct (decide (ws < length (sockets st))).
    + rewrite step_error by done. by apply wf_logger.
    + simpl. rewrite emit_ws_unknown by lia. done.
  - destruct (decide (ws < length (sockets st))).
    + rewrite step_close by done. by apply wf_setTimeout, wf_logger.
    + simpl. rewrite emit_ws_unknown by lia. done.
  - by apply (wf_core st).
  - by apply wf_fire.
  - simpl. unfold on_interaction. destruct chat; [| done].
    case_decide; [by apply wf_join_handler, wf_logger | by apply wf_logger].
  - simpl. pose proof (emit_conn_core conn is_state_listener (o, n) [] st) as H.
    simpl in H. apply (wf_core st); tauto.
  - simpl. pose proof (emit_conn_core conn is_ready_listener ("", "") failing st) as H.
    simpl in H. apply (wf_core st); tauto.
  - simpl. pose proof (emit_conn_core conn is_error_listener ("", "") [] st) as H.
    simpl in H. apply (wf_core st); tauto.
  - simpl. pose proof (emit_player_core is_player_state_listener (o, n) st) as H.
    simpl in H. apply (wf_core st); tauto.
  - simpl.
    pose proof (emit_player_core (λ l, negb (is_player_state_listener l)) ("", "") st) as H.
    simpl in H. apply (wf_core st); tauto.
Qed.

Lemma wf_run (tr : list Event) (st : State) : WellFormed st → WellFormed (run tr st).
Proof.
  revert st. induction tr as [| e tr IH]; intros st HI; [done |].
  apply IH. by apply wf_step.
Qed.

Lemma wf_reachable (tr : list Event) : WellFormed (run tr init).
Proof. apply wf_run, wf_init. Qed.

(** ** The connector's timers *)

Lemma on_interaction_connector (chat : bool) (name : string) (ch : Channel) (joined : nat)
    (st : State) :
  let st' := on_interaction chat name ch joined st in
  sockets st' = sockets st ∧ timers st' = timers st ∧ now st' = now st ∧
  playCalls st' = playCalls st.
Proof.
  unfold on_interaction. destruct chat; [| done]. case_decide; [| done].
  unfold join_handler. by destruct (negb (isGuildVoice ch) || negb (isVoiceChannel ch)).
Qed.

(** Nothing but its own firing touches a timer. *)
Lemma timer_kept (e : Event) (i : nat) (t : Timer) (st : State) :
  WellFormed st → timers st !! i = Some t → e ≠ TimerFire i →
  timers (step e st) !! i = Some t.
Proof.
  intros HI Ht He.
  destruct e as [ws | ws d | ws err | ws | ms | j | chat name ch joined
                 | conn o n | conn failing | conn | o n |].
  - destruct (decide (ws < length (sockets st))).
    + by rewrite step_open.
    + simpl. by rewrite emit_ws_unknown by lia.
  - destruct (decide (ws < length (sockets st))).
    + by rewrite step_message, emit_audio_all.
    + simpl. by rewrite emit_ws_unknown by lia.
  - destruct (decide (ws < length (sockets st))).
    + by rewrite step_error.
    + simpl. by rewrite emit_ws_unknown by lia.
  - destruct (decide (ws < length (sockets st))).
    + rewrite step_close by done. simpl. rewrite lookup_app_l; [done |].
      by eapply lookup_lt_Some.
    + simpl. by rewrite emit_ws_unknown by lia.
  - done.
  - simpl. unfold fire. destruct (timers st !! j) as [t' |] eqn:Ht'; [| done].
    destruct (pending t' && bool_decide (due t' ≤ now st)%N); [| done].
    destruct (callback t'). simpl. rewrite list_lookup_alter_ne; [done |]. congruence.
  - simpl. pose proof (on_interaction_connector chat name ch joined st) as H.
    simpl in H. destruct H as (_ & -> & _). done.
  - simpl. pose proof (emit_conn_core conn is_state_listener (o, n) [] st) as H.
    simpl in H. destruct H as (_ & -> & _). done.
  - simpl. pose proof (emit_conn_core conn is_ready_listener ("", "") failing st) as H.
    simpl in H. destruct H as (_ & -> & _). done.
  - simpl. pose proof (emit_conn_core conn is_error_listener ("", "") [] st) as H.
    simpl in H. destruct H as (_ & -> & _). done.
  - simpl. pose proof (emit_player_core is_player_state_listener (o, n) st) as H.
    simpl in H. destruct H as (_ & -> & _). done.
  - simpl.
    pose proof (emit_player_core (λ l, negb (is_player_state_listener l)) ("", "") st) as H.
    simpl in H. destruct H as (_ & -> & _). done.
Qed.

Lemma fire_due (i : nat) (t : Timer) (st : State) :
  WellFormed st → timers st !! i = Some t → pending t = true → (due t ≤ now st)%N →
  step (TimerFire i) st =
  connectToWebSocket
    (logger LInfo "Attempting to reconnect..." (with_timers (alter mark_fired i) st)).
Proof.
  intros HI Ht Hp Hd. simpl. unfold fire. rewrite Ht, Hp.
  rewrite bool_decide_true by done. simpl.
  by destruct (inv_timers _ HI _ _ Ht) as [-> _].
Qed.

Lemma fire_early (i : nat) (t : Timer) (st : State) :
  timers st !! i = Some t → (now st < due t)%N → step (TimerFire i) st = st.
Proof.
  intros Ht Hd. simpl. unfold fire. rewrite Ht.
  rewrite bool_decide_false by lia. by rewrite andb_false_r.
Qed.

Lemma reconnect_cycle_unfold (ws timer : nat) (st : State) :
  run (reconnect_cycle ws timer) st =
  step (TimerFire timer) (step (Elapse 5000) (step (WsClose ws) st)).
Proof. reflexivity. Qed.

Lemma reconnect_cycle_fires (ws : nat) (st : State) :
  WellFormed st → ws < length (sockets st) →
  run (reconnect_cycle ws (length (timers st))) st =
  connectToWebSocket
    (logger LInfo "Attempting to reconnect..."
       (with_timers (alter mark_fired (length (timers st)))
          (step (Elapse 5000)
             (setTimeout Reconnect 5000 (logger LInfo "WebSocket connection closed" st))))).
Proof.
  intros HI Hws. rewrite reconnect_cycle_unfold, step_close by done.
  apply (fire_due _ (mkTimer Reconnect 5000 (now st + 5000) true)).
  - by apply wf_step, wf_setTimeout, wf_logger.
  - by apply list_lookup_middle.
  - done.
  - done.
Qed.

Lemma reconnect_cycle_run (ws : nat) (st : State) :
  WellFormed st → ws < length (sockets st) →
  let st' := run (reconnect_cycle ws (length (timers st))) st in
  sockets st' = sockets st ++ [connector_socket] ∧
  length (timers st') = S (length (timers st)) ∧
  (∀ i t, timers st' !! i = Some t →
     (i < length (timers st) ∧ timers st !! i = Some t) ∨
     (i = length (timers st) ∧ t = mkTimer Reconnect 5000 (now st + 5000) false)).
Proof.
  intros HI Hws st'. unfold st'. rewrite reconnect_cycle_fires by done. simpl.
  split_and!; [done | |].
  - rewrite length_alter, length_app. simpl. lia.
  - intros i t. rewrite list_lookup_alter. case_decide as E.
    + subst i. rewrite list_lookup_middle by done. simpl. intros [= <-]. by right.
    + intros [[? H] | [H _]]%lookup_snoc_Some; [by left | lia].
Qed.

Lemma reconnect_cycles_run (n : nat) :
  let st := run (reconnect_cycles n) init in
  length (sockets st) = S n ∧ length (timers st) = n ∧
  (∀ i t, timers st !! i = Some t → delay t = 5000%N ∧ pending t = false).
Proof.
  induction n as [| n IH].
  - simpl. split_and!; try done.
  - unfold reconnect_cycles in *. rewrite seq_S, flat_map_app. simpl flat_map.
    rewrite bot_run_app. change [WsClose n; Elapse 5000; TimerFire n] with (reconnect_cycle n n).
    simpl in IH.
    set (st := run (flat_map (λ k, reconnect_cycle k k) (seq 0 n)) init) in *.
    destruct IH as (Hs & Ht & Hall).
    assert (HI : WellFormed st) by apply wf_reachable.
    pose proof (reconnect_cycle_run n st HI) as Hc. rewrite Ht in Hc.
    destruct Hc as (Hs' & Ht' & Hnew); [lia |].
    split_and!.
    + rewrite Hs', length_app. simpl. lia.
    + lia.
    + intros i t [[_ Hi] | [_ ->]]%Hnew; [by eapply Hall | done].
Qed.

(** C4: every close event on a socket of the connector adds exactly one
    timer, with the reconnect callback and a delay of 5000 ms, whatever came
    before; every timer of a reachable state has that delay; no event other
    than its own firing touches a timer, which does not fire before it is
    due; when it fires it makes one new socket to the same address with the
    same listeners.  A close followed by 5000 ms and the firing therefore
    always ends in a new connection attempt, and [n] such rounds from the
    start make [n] timers and [n + 1] sockets, for every [n]. *)
Theorem reconnect_after_every_close (tr : list Event) (ws : nat) :
  let st := run tr init in
  ws < length (sockets st) →
  let st' := step (WsClose ws) st in
  timers st' = timers st ++ [mkTimer Reconnect 5000 (now st + 5000) true] ∧
  sockets st' = sockets st ∧
  (∀ i t, timers st' !! i = Some t → callback t = Reconnect ∧ delay t = 5000%N) ∧
  (∀ e i t, timers st' !! i = Some t → e ≠ TimerFire i →
     timers (step e st') !! i = Some t) ∧
  (∀ i t, timers st' !! i = Some t → (now st' < due t)%N →
     step (TimerFire i) st' = st') ∧
  (∀ i t, timers st' !! i = Some t → pending t = true → (due t ≤ now st')%N →
     sockets (step (TimerFire i) st') = sockets st' ++ [connector_socket] ∧
     timers (step (TimerFire i) st') = alter mark_fired i (timers st')) ∧
  sockets (run (reconnect_cycle ws (length (timers st))) st) =
    sockets st ++ [connector_socket] ∧
  (∀ n, let stn := run (reconnect_cycles n) init in
        length (sockets stn) = S n ∧ length (timers stn) = n ∧
        ∀ i t, timers stn !! i = Some t → delay t = 5000%N ∧ pending t = false).
Proof.
  intros st Hws st'.
  assert (HI : WellFormed st) by apply wf_reachable.
  assert (HI' : WellFormed st') by by apply wf_step.
  assert (Hst' : st' = setTimeout Reconnect 5000
                         (logger LInfo "WebSocket connection closed" st))
    by by apply step_close.
  split_and!.
  - by rewrite Hst'.
  - by rewrite Hst'.
  - apply (inv_timers _ HI').
  - intros e i t Ht He. by apply timer_kept.
  - intros i t. apply fire_early.
  - intros i t Ht Hp Hd. by rewrite (fire_due i t).
  - by apply reconnect_cycle_run.
  - apply reconnect_cycles_run.
Qed.

Lemma reconnect_after_every_close_witness :
  timers (step (WsClose 0) (run [WsOpen 0; Elapse 1234] init)) =
    [mkTimer Reconnect 5000 6234 true] ∧
  sockets (run (reconnect_cycle 0 0) (run [WsOpen 0; Elapse 1234] init)) =
    [connector_socket; connector_socket].
Proof.
  destruct (reconnect_after_every_close [WsOpen 0; Elapse 1234] 0)
    as (H1 & _ & _ & _ & _ & _ & H2 & _).
  - vm_compute. lia.
  - split; [exact H1 | exact H2].
Defined.

(** ** Frames *)

Lemma step_message_pipelines (ws : nat) (d : Data) (st : State) :
  WellFormed st → ws < length (sockets st) →
  step (WsMessage ws d) st = with_pipelines (fmap (push_data d)) st.
Proof. intros HI Hws. by rewrite step_message, emit_audio_all. Qed.




(** ** Playback *)










(** ** Reconnect attempts *)

















(** ** Joins *)

Lemma listener_view_emit_ws (ws : nat) (which : ClientSocket → list WsListener)
    (p : WsPayload) (st : State) :
  listener_view (emit_ws ws which p st) = listener_view st.
Proof.
  unfold emit_ws. destruct (sockets st !! ws); [| done].
  apply foldl_preserves. intros a l. destruct l; simpl; try done.
  destruct p; try done. unfold emit_audio. apply foldl_preserves.
  intros a' k. unfold listener_view. simpl. by rewrite length_alter.
Qed.

Lemma step_listener_view (e : Event) (st : State) :
  listener_view (step e st) =
  if accepted_join e
  then (audioListeners st ++ [length (pipelines st)], S (length (pipelines st)))
  else listener_view st.
Proof.
  destruct e as [ws | ws d | ws err | ws | ms | i | chat name ch joined
                 | conn o n | conn failing | conn | o n |]; simpl;
    try apply listener_view_emit_ws.
  - done.
  - unfold fire. destruct (timers st !! i) as [t |]; [| done].
    destruct (pending t && bool_decide (due t ≤ now st)%N); [| done]. by destruct (callback t).
  - unfold on_interaction. destruct chat; [| done].
    case_decide as Hn.
    + rewrite bool_decide_true by done. simpl. unfold join_handler, listener_view.
      destruct (isGuildVoice ch), (isVoiceChannel ch); simpl; try done.
      rewrite length_app. simpl. f_equal. lia.
    + by rewrite bool_decide_false by done.
  - pose proof (emit_conn_core conn is_state_listener (o, n) [] st) as H.
    simpl in H. destruct H as (_ & _ & _ & E1 & E2 & _). unfold listener_view.
    by rewrite E1, E2.
  - pose proof (emit_conn_core conn is_ready_listener ("", "") failing st) as H.
    simpl in H. destruct H as (_ & _ & _ & E1 & E2 & _). unfold listener_view.
    by rewrite E1, E2.
  - pose proof (emit_conn_core conn is_error_listener ("", "") [] st) as H.
    simpl in H. destruct H as (_ & _ & _ & E1 & E2 & _). unfold listener_view.
    by rewrite E1, E2.
  - pose proof (emit_player_core is_player_state_listener (o, n) st) as H.
    simpl in H. destruct H as (_ & _ & _ & E1 & E2 & _). unfold listener_view.
    by rewrite E1, E2.
  - pose proof (emit_player_core (λ l, negb (is_player_state_listener l)) ("", "") st) as H.
    simpl in H. destruct H as (_ & _ & _ & E1 & E2 & _). unfold listener_view.
    by rewrite E1, E2.
Qed.

Lemma pipelines_joins (tr : list Event) : length (pipelines (run tr init)) = joins tr.
Proof.
  induction tr as [| e tr IH] using rev_ind; [done |].
  rewrite bot_run_snoc. unfold joins in *. rewrite filter_app, length_app, <- IH.
  pose proof (step_listener_view e (run tr init)) as H. unfold listener_view in H.
  rewrite filter_cons, filter_nil.
  destruct (accepted_join e); simpl; injection H as _ ->; simpl; lia.
Qed.

(** C9 fails: the handler runs, finds that the channel is no voice channel,
    replies with the error and returns; no listener and no stream are made,
    and the next frame goes nowhere. *)
Lemma refused_join_adds_no_listener :
  let st := step (Interaction true "join-voice-channel" (mkChannel "42" true false) 7) init in
  st = join_handler (mkChannel "42" true false) 7
         (logger LDebug "got interaction: join-voice-channel" init) ∧
  audioListeners st = [] ∧ pipelines st = [] ∧
  replies st = ["ERROR: can only set this to a voice channel!"] ∧
  pipelines (step (WsMessage 0 [Byte.x01]) st) = [].
Proof. by vm_compute. Qed.

(** C9, amended: a run of the handler whose channel passes the guard adds
    one audio listener, for a stream of its own, and a run whose channel does
    not adds none; no event removes a listener.  So after any history the
    listeners are as many as the accepted joins in it, one for each stream
    ever made, and a frame that arrives is appended to every one of these
    streams. *)
Theorem accepted_joins_accumulate_listeners (tr : list Event) :
  let st := run tr init in
  (∀ ch joined, isGuildVoice ch = true → isVoiceChannel ch = true →
     audioListeners (join_handler ch joined st) =
       audioListeners st ++ [length (pipelines st)] ∧
     pipelines (join_handler ch joined st) = pipelines st ++ [mkPipeline joined [] []]) ∧
  (∀ ch joined, isGuildVoice ch = false ∨ isVoiceChannel ch = false →
     audioListeners (join_handler ch joined st) = audioListeners st ∧
     pipelines (join_handler ch joined st) = pipelines st) ∧
  (∀ e, audioListeners st `prefix_of` audioListeners (step e st)) ∧
  length (pipelines st) = joins tr ∧
  audioListeners st = seq 0 (joins tr) ∧
  (∀ ws d, ws < length (sockets st) →
     pipelines (step (WsMessage ws d) st) = push_data d <$> pipelines st).
Proof.
  intros st. assert (HI : WellFormed st) by apply wf_reachable. split_and!.
  - intros ch joined H1 H2.
    by destruct (join_handler_passes ch joined st H1 H2) as (_ & _ & _ & -> & -> & _).
  - intros ch joined H. by rewrite join_handler_refuses.
  - intros e. pose proof (step_listener_view e st) as H. unfold listener_view in H.
    destruct (accepted_join e); injection H as -> _; [by eexists | done].
  - apply pipelines_joins.
  - rewrite (inv_listeners _ HI). f_equal. apply pipelines_joins.
  - intros ws d Hws. by rewrite step_message_pipelines.
Qed.

(** ** Further facts: connections and closes *)




(** ** Further facts: what joins leave behind *)

Lemma step_voice (e : Event) (st : State) :
  WellFormed st →
  (accepted_join e = true ∧
   ∃ name ch joined, e = Interaction true name ch joined ∧
     connListeners (step e st) =
       connListeners st ++ [(joined, LogConnState); (joined, LogConnError);
                            (joined, PlayOnReady (length (pipelines st)))] ∧
     playerListeners (step e st) = playerListeners st ++ [LogPlayerState; LogPlayerError] ∧
     pipelines (step e st) = pipelines st ++ [mkPipeline joined [] []] ∧
     subscriptions (step e st) = subscriptions st ++ [joined] ∧
     replies (step e st) =
       replies st ++ ["Joined voice channel <#" +:+ channelId ch +:+
                      ">! Now listening for audio."]) ∨
  (accepted_join e = false ∧
   connListeners (step e st) = connListeners st ∧
   playerListeners (step e st) = playerListeners st ∧
   subscriptions (step e st) = subscriptions st ∧
   (pipelines (step e st) = pipelines st ∨
    ∃ d, pipelines (step e st) = push_data d <$> pipelines st) ∧
   replies (step e st) = replies st ++ (if invoked e then [refusal] else [])).
Proof.
  intros HI.
  destruct e as [ws | ws d | ws err | ws | ms | i | chat name ch joined
                 | conn o n | conn failing | conn | o n |].
  - right. destruct (decide (ws < length (sockets st))).
    + rewrite step_open by done. simpl. rewrite app_nil_r. split_and!; auto.
    + simpl. rewrite emit_ws_unknown, app_nil_r by lia. split_and!; auto.
  - right. destruct (decide (ws < length (sockets st))).
    + rewrite step_message_pipelines by done. simpl. rewrite app_nil_r. split_and!; eauto.
    + simpl. rewrite emit_ws_unknown, app_nil_r by lia. split_and!; auto.
  - right. destruct (decide (ws < length (sockets st))).
    + rewrite step_error by done. simpl. rewrite app_nil_r. split_and!; auto.
    + simpl. rewrite emit_ws_unknown, app_nil_r by lia. split_and!; auto.
  - right. destruct (decide (ws < length (sockets st))).
    + rewrite step_close by done. simpl. rewrite app_nil_r. split_and!; auto.
    + simpl. rewrite emit_ws_unknown, app_nil_r by lia. split_and!; auto.
  - right. simpl. rewrite app_nil_r. split_and!; auto.
  - right. simpl. rewrite app_nil_r. unfold fire.
    destruct (timers st !! i) as [t |]; [| split_and!; auto].
    destruct (pending t && bool_decide (due t ≤ now st)%N); [| split_and!; auto].
    destruct (callback t). simpl. split_and!; auto.
  - simpl. unfold on_interaction. destruct chat; [| right; rewrite app_nil_r; split_and!; auto].
    case_decide as Hn.
    + rewrite bool_decide_true by done. simpl. unfold join_handler.
      destruct (isGuildVoice ch) eqn:H1, (isVoiceChannel ch) eqn:H2; simpl.
      * left. split; [done |]. exists name, ch, joined.
        split_and!; try done; by rewrite <- !app_assoc.
      * right. split_and!; auto.
      * right. split_and!; auto.
      * right. split_and!; auto.
    + right. rewrite bool_decide_false by done. simpl. rewrite app_nil_r. split_and!; auto.
  - right. simpl. rewrite app_nil_r.
    pose proof (emit_conn_core conn is_state_listener (o, n) [] st) as H.
    simpl in H. destruct H as (_ & _ & _ & _ & -> & -> & -> & -> & ->). split_and!; auto.
  - right. simpl. rewrite app_nil_r.
    pose proof (emit_conn_core conn is_ready_listener ("", "") failing st) as H.
    simpl in H. destruct H as (_ & _ & _ & _ & -> & -> & -> & -> & ->). split_and!; auto.
  - right. simpl. rewrite app_nil_r.
    pose proof (emit_conn_core conn is_error_listener ("", "") [] st) as H.
    simpl in H. destruct H as (_ & _ & _ & _ & -> & -> & -> & -> & ->). split_and!; auto.
  - right. simpl. rewrite app_nil_r.
    pose proof (emit_player_core is_player_state_listener (o, n) st) as H.
    simpl in H. destruct H as (_ & _ & _ & _ & -> & -> & -> & -> & -> & _). split_and!; auto.
  - right. simpl. rewrite app_nil_r.
    pose proof (emit_player_core (λ l, negb (is_player_state_listener l)) ("", "") st) as H.
    simpl in H. destruct H as (_ & _ & _ & _ & -> & -> & -> & -> & -> & _). split_and!; auto.
Qed.

Lemma accepted_is_invoked (e : Event) : accepted_join e = true → invoked e = true.
Proof.
  destruct e as [| | | | | | chat name ch joined | | | | |]; try done.
  destruct chat; [| done]. simpl. by destruct (bool_decide (name = "join-voice-channel")).
Qed.

(** X8: every run of the handler of join-voice-channel replies exactly
    once, and no other event replies: the replies are as many as the
    interactions that reached the handler, and the refusals among them are
    those whose channel did not pass the guard. *)
Theorem one_reply_for_each_invocation (tr : list Event) :
  let st := run tr init in
  length (replies st) = length (filter invoked tr) ∧
  length (filter (λ r, r = refusal) (replies st)) + joins tr = length (filter invoked tr).
Proof.
  induction tr as [| e tr IH] using rev_ind; [done |].
  rewrite bot_run_snoc. simpl in IH. set (st := run tr init) in *.
  assert (HI : WellFormed st) by apply wf_reachable.
  destruct IH as (Hlen & Href). unfold joins in *.
  rewrite !filter_app, !length_app. rewrite !filter_cons, !filter_nil.
  destruct (step_voice e st HI)
    as [(Ha & name & ch & joined & _ & _ & _ & _ & _ & ->) | (Ha & _ & _ & _ & _ & ->)].
  - rewrite Ha, (accepted_is_invoked e Ha). simpl.
    rewrite filter_app, !length_app. rewrite filter_cons_False by by intros [=].
    simpl. lia.
  - rewrite Ha. destruct (invoked e); simpl.
    + rewrite filter_app, !length_app. rewrite filter_cons_True by done. simpl. lia.
    + rewrite !app_nil_r. lia.
Qed.

Lemma resources_from_snoc (k conn : nat) (ps : list Pipeline) (p : Pipeline) :
  resources_from k conn (ps ++ [p]) =
  resources_from k conn ps ++ (if decide (connection p = conn) then [k + length ps] else []).
Proof.
  revert k. induction ps as [| a ps IH]; intros k; simpl.
  - rewrite app_nil_r. by replace (k + 0) with k by lia.
  - rewrite IH, <- app_assoc. by replace (S k + length ps) with (k + S (length ps)) by lia.
Qed.

Lemma resources_from_push (k conn : nat) (d : Data) (ps : list Pipeline) :
  resources_from k conn (push_data d <$> ps) = resources_from k conn ps.
Proof. revert k. induction ps as [| a ps IH]; intros k; simpl; [done | by rewrite IH]. Qed.

Lemma elem_of_resources_from (k conn r : nat) (ps : list Pipeline) :
  r ∈ resources_from k conn ps ↔
  ∃ i p, ps !! i = Some p ∧ connection p = conn ∧ r = k + i.
Proof.
  revert k. induction ps as [| a ps IH]; intros k; simpl.
  - split; [by intros H%elem_of_nil | by intros (i & p & H & _)].
  - rewrite elem_of_app, IH. split.
    + intros [H | (i & p & Hi & Hc & ->)].
      * case_decide; [| by apply elem_of_nil in H].
        apply list_elem_of_singleton in H as ->. exists 0, a. split_and!; [done | done | lia].
      * exists (S i), p. split_and!; [done | done | lia].
    + intros (i & p & Hi & Hc & ->). destruct i as [| i]; simpl in Hi.
      * left. injection Hi as ->. rewrite decide_True by done.
        apply list_elem_of_singleton. lia.
      * right. exists i, p. split_and!; [done | done | lia].
Qed.

(** The ready listeners are those of the pipelines, in the order of the
    joins. *)
Lemma ready_listeners_of_pipelines (tr : list Event) (conn : nat) :
  ready_resources conn (connListeners (run tr init)) =
  resources_of conn (pipelines (run tr init)).
Proof.
  induction tr as [| e tr IH] using rev_ind; [done |].
  rewrite bot_run_snoc. set (st := run tr init) in *.
  assert (HI : WellFormed st) by apply wf_reachable. unfold resources_of in *.
  destruct (step_voice e st HI)
    as [(_ & name & ch & joined & _ & -> & _ & -> & _) | (_ & -> & _ & _ & [-> | [d ->]] & _)].
  - rewrite resources_from_snoc. unfold ready_resources in *. rewrite omap_app, IH.
    simpl. by case_decide.
  - done.
  - by rewrite resources_from_push.
Qed.

Lemma ready_listeners_play (conn : nat) (ss : string * string) (failing : list nat)
    (l : list (nat * ConnListener)) (st : State) :
  playCalls
    (foldl (λ acc cl, if bool_decide (cl.1 = conn) && is_ready_listener cl.2
                      then call_conn cl.2 ss failing acc else acc) st l) =
  playCalls st ++ filter (λ r, r ∉ failing) (ready_resources conn l).
Proof.
  revert st. induction l as [| [c cl] l IH]; intros st.
  - simpl. by rewrite app_nil_r.
  - change ((c, cl) :: l) with ([(c, cl)] ++ l). rewrite foldl_app, IH.
    assert (ready_resources conn ([(c, cl)] ++ l) =
            ready_resources conn [(c, cl)] ++ ready_resources conn l) as ->
      by apply omap_app.
    rewrite filter_app, app_assoc. f_equal.
    unfold ready_resources. simpl.
    destruct cl as [| | r]; simpl; rewrite ?andb_false_r, ?app_nil_r; try done.
    destruct (decide (c = conn)) as [-> | Hne].
    + rewrite bool_decide_true by done. simpl.
      destruct (decide (r ∈ failing)) as [Hf | Hf]; simpl.
      * rewrite filter_cons_False by (by intros H; apply H). by rewrite app_nil_r.
      * by rewrite filter_cons_True by done.
    + rewrite bool_decide_false by done. simpl. by rewrite app_nil_r.
Qed.

(** X9: a ready event of a voice connection calls [play] for every
    resource whose pipeline joined that connection, oldest first, leaving out
    the ones for which [play] throws; it does so at every ready event, not
    only the first. *)
Theorem ready_plays_the_resources_of_its_connection
    (tr : list Event) (conn : nat) (failing : list nat) :
  let st := run tr init in
  playCalls (step (ConnReady conn failing) st) =
    playCalls st ++ filter (λ r, r ∉ failing) (resources_of conn (pipelines st)) ∧
  (∀ r, r ∈ resources_of conn (pipelines st) ↔
        ∃ p, pipelines st !! r = Some p ∧ connection p = conn).
Proof.
  intros st. split.
  - simpl. unfold emit_conn. rewrite ready_listeners_play.
    unfold st. by rewrite ready_listeners_of_pipelines.
  - intros r. unfold resources_of. rewrite elem_of_resources_from. split.
    + intros (i & p & Hi & Hc & ->). by exists p.
    + intros (p & Hp & Hc). by exists r, p.
Qed.

Lemma player_listeners_of_S (n : nat) :
  player_listeners_of (S n) = player_listeners_of n ++ [LogPlayerState; LogPlayerError].
Proof. unfold player_listeners_of. by rewrite seq_S, flat_map_app. Qed.

Lemma player_listeners_of_pipelines (tr : list Event) :
  playerListeners (run tr init) = player_listeners_of (length (pipelines (run tr init))).
Proof.
  induction tr as [| e tr IH] using rev_ind; [done |].
  rewrite bot_run_snoc. set (st := run tr init) in *.
  assert (HI : WellFormed st) by apply wf_reachable.
  destruct (step_voice e st HI)
    as [(_ & name & ch & joined & _ & _ & -> & -> & _) | (_ & _ & -> & _ & [-> | [d ->]] & _)].
  - rewrite length_app. simpl. replace (length (pipelines st) + 1) with (S (length (pipelines st))) by lia.
    by rewrite player_listeners_of_S, IH.
  - done.
  - by rewrite length_fmap.
Qed.

Lemma player_listeners_log (which : PlayerListener → bool) (ss : string * string)
    (n : nat) (st : State) :
  log (foldl (λ acc l, if which l then call_player l ss acc else acc) st
         (player_listeners_of n)) =
  log st ++
    mjoin (replicate n
      ((if which LogPlayerState
        then [(LInfo, "Audio player transitioned from " +:+ ss.1 +:+ " to " +:+ ss.2)]
        else []) ++
       (if which LogPlayerError then [(LError, "Error in audio player")] else []))).
Proof.
  induction n as [| n IH].
  - simpl. by rewrite app_nil_r.
  - rewrite player_listeners_of_S, foldl_app, replicate_S_end, join_app.
    rewrite (app_assoc (log st)), <- IH. simpl.
    destruct (which LogPlayerState), (which LogPlayerError); simpl;
      by rewrite ?app_nil_r, <- ?app_assoc.
Qed.

Lemma join_replicate_singleton {A : Type} (n : nat) (x : A) :
  mjoin (replicate n [x]) = replicate n x.
Proof. induction n as [| n IH]; simpl; [done | by rewrite IH]. Qed.

(** X10: the handler adds its two listeners to the one audio player each
    time it accepts a join and never removes them, so after [n] accepted
    joins every state change of the player is logged [n] times, and so is
    every error of the player. *)
Theorem player_listeners_pile_up (tr : list Event) (o n : string) :
  let st := run tr init in
  playerListeners st = player_listeners_of (joins tr) ∧
  log (step (PlayerStateChange o n) st) =
    log st ++ replicate (joins tr)
                (LInfo, "Audio player transitioned from " +:+ o +:+ " to " +:+ n) ∧
  log (step PlayerError st) =
    log st ++ replicate (joins tr) (LError, "Error in audio player").
Proof.
  intros st.
  assert (Hl : playerListeners st = player_listeners_of (joins tr)).
  { unfold st. by rewrite player_listeners_of_pipelines, pipelines_joins. }
  split_and!; [done | |]; simpl; unfold emit_player; rewrite Hl, player_listeners_log;
    simpl; by rewrite app_nil_r || rewrite join_replicate_singleton.
Qed.

End BotProofs.


(* ===================================================================== *)
(** * Facts about the page *)
(* ===================================================================== *)

Module SiteProofs.
Import Site.

Lemma site_run_snoc (tr : list Event) (e : Event) (st : State) :
  run (tr ++ [e]) st = step e (run tr st).
Proof. unfold run. by rewrite foldl_app. Qed.

Lemma page_init : Inv init.
Proof. split; simpl; try done; intros ws s H; by rewrite lookup_nil in H. Qed.

Lemma finished_close_called (s : Socket) : finished (close_called s).
Proof. unfold finished, close_called. simpl. destruct (readyState s); auto. Qed.

Lemma page_stopStreaming (st : State) : Inv st → Inv (stopStreaming st).
Proof.
  intros HI. unfold stopStreaming.
  destruct (websocketRef st) as [w |] eqn:Hw.
  - split; simpl; try done.
    + intros ws s. destruct (decide (w = ws)) as [<- | Hne].
      * rewrite list_lookup_alter_eq. destruct (sockets st !! w) as [s0 |] eqn:Hs; [| done].
        simpl. intros [= <-]. simpl. by eapply (inv_chunks _ HI).
      * rewrite list_lookup_alter_ne by done. apply (inv_chunks _ HI).
    + intros ws s. destruct (decide (w = ws)) as [<- | Hne].
      * rewrite list_lookup_alter_eq. destruct (sockets st !! w) as [s0 |] eqn:Hs; [| done].
        simpl. intros [= <-]. simpl. by destruct (readyState s0).
      * rewrite list_lookup_alter_ne by done. apply (inv_connecting _ HI).
    + intros ws s. destruct (decide (w = ws)) as [<- | Hne].
      * rewrite list_lookup_alter_eq. destruct (sockets st !! w) as [s0 |] eqn:Hs; [| done].
        simpl. intros [= <-]. simpl. by rewrite (inv_ref_unclosed _ HI w s0).
      * rewrite list_lookup_alter_ne by done. apply (inv_closed_once _ HI).
    + intros ws s. destruct (decide (w = ws)) as [<- | Hne].
      * rewrite list_lookup_alter_eq. destruct (sockets st !! w) as [s0 |] eqn:Hs; [| done].
        simpl. intros [= <-] _. apply finished_close_called.
      * rewrite list_lookup_alter_ne by done. apply (inv_close_finishes _ HI).
  - destruct HI. split; simpl; done.
Qed.

Lemma page_startStreaming_granted (tracks : nat) (outcome : Outcome) (st : State) :
  Inv st → Inv (startStreaming_granted tracks outcome st).
Proof.
  intros HI.
  assert (Hsnoc : ∀ ws s,
            (sockets st ++ [mkSocket "ws://localhost:8080" CONNECTING [] 0]) !! ws = Some s →
            sockets st !! ws = Some s ∨
            (ws = length (sockets st) ∧ s = mkSocket "ws://localhost:8080" CONNECTING [] 0)).
  { intros ws s [[_ H] | [-> <-]]%lookup_snoc_Some; auto. }
  destruct outcome; split; simpl; try done.
  all: try (intros ws [= <-]; rewrite length_app; simpl; lia).
  all: try (intros ws s Hs%Hsnoc; destruct Hs as [Hs | [-> ->]]; simpl;
            [by first [eapply (inv_chunks _ HI) | eapply (inv_connecting _ HI)
                      | eapply (inv_closed_once _ HI) | eapply (inv_close_finishes _ HI)]
            | first [done | lia | by constructor]]).
  all: try (intros ws s [= <-] Hs%Hsnoc; destruct Hs as [Hs | [_ ->]]; [| done];
            apply lookup_lt_Some in Hs; lia).
Qed.

Lemma page_step (e : Event) (st : State) : Inv st → Inv (step e st).
Proof.
  intros HI. destruct e as [| tracks outcome | dom | r chunk | w | w]; simpl.
  - destruct (isRecording st) eqn:Hr; [by apply page_stopStreaming |].
    destruct HI. split; simpl; done.
  - destruct (pendingMedia st); [done |]. apply page_startStreaming_granted.
    by destruct HI.
  - destruct (pendingMedia st); [done |]. by destruct HI.
  - destruct (recorders st !! r) as [rec |]; [| done]. unfold ondataavailable.
    destruct (bool_decide (0 < length chunk)) eqn:Hc; simpl; [| done].
    unfold is_open. destruct (sockets st !! target rec) as [s0 |] eqn:Hs; [| done].
    destruct (bool_decide (readyState s0 = OPEN)) eqn:Ho; [| done].
    apply bool_decide_eq_true in Hc, Ho.
    assert (Hl : ∀ ws s, alter (push_sent chunk) (target rec) (sockets st) !! ws = Some s →
              sockets st !! ws = Some s ∨
              (ws = target rec ∧ s = push_sent chunk s0)).
    { intros ws s. destruct (decide (target rec = ws)) as [<- | Hne].
      - rewrite list_lookup_alter_eq, Hs. simpl. intros [= <-]. auto.
      - rewrite list_lookup_alter_ne by done. auto. }
    destruct HI. split; simpl; try done.
    + intros ws Hw. rewrite length_alter. auto.
    + intros ws s [H | [-> ->]]%Hl; [eauto |]. simpl. apply Forall_app. split; [eauto |].
      apply Forall_singleton. intros ->. simpl in Hc. lia.
    + intros ws s [H | [-> ->]]%Hl; [eauto |]. simpl. congruence.
    + intros ws s Hw [H | [-> ->]]%Hl; [eauto |]. simpl. eauto.
    + intros ws s [H | [-> ->]]%Hl; [eauto |]. simpl. eauto.
    + intros ws s [H | [-> ->]]%Hl; [eauto |]. simpl. intros H1.
      destruct (inv_close_finishes0 _ _ Hs H1) as [H2 | H2]; congruence.
  - assert (Hl : ∀ ws s,
              alter (λ s, if decide (readyState s = CONNECTING) then set_state OPEN s else s)
                    w (sockets st) !! ws = Some s →
              sockets st !! ws = Some s ∨
              (∃ s0, sockets st !! ws = Some s0 ∧ readyState s0 = CONNECTING ∧
                     s = set_state OPEN s0)).
    { intros ws s. destruct (decide (w = ws)) as [<- | Hne].
      - rewrite list_lookup_alter_eq. destruct (sockets st !! w) as [s0 |]; [| done].
        simpl. case_decide; intros [= <-]; eauto.
      - rewrite list_lookup_alter_ne by done. auto. }
    destruct HI. split; simpl; try done.
    + intros ws Hw. rewrite length_alter. auto.
    + intros ws s [H | (s0 & H & _ & ->)]%Hl; simpl; eauto.
    + intros ws s [H | (s0 & H & _ & ->)]%Hl; simpl; [eauto | done].
    + intros ws s Hw [H | (s0 & H & _ & ->)]%Hl; simpl; eauto.
    + intros ws s [H | (s0 & H & _ & ->)]%Hl; simpl; eauto.
    + intros ws s [H | (s0 & H & Hc & ->)]%Hl; simpl; [eauto |]. intros H1.
      destruct (inv_close_finishes0 _ _ H H1) as [H2 | H2]; congruence.
  - assert (Hl : ∀ ws s, alter (set_state CLOSED) w (sockets st) !! ws = Some s →
              sockets st !! ws = Some s ∨
              (∃ s0, sockets st !! ws = Some s0 ∧ s = set_state CLOSED s0)).
    { intros ws s. destruct (decide (w = ws)) as [<- | Hne].
      - rewrite list_lookup_alter_eq. destruct (sockets st !! w) as [s0 |]; [| done].
        simpl. intros [= <-]; eauto.
      - rewrite list_lookup_alter_ne by done. auto. }
    destruct HI. split; simpl; try done.
    + intros ws Hw. rewrite length_alter. auto.
    + intros ws s [H | (s0 & H & ->)]%Hl; simpl; eauto.
    + intros ws s [H | (s0 & H & ->)]%Hl; simpl; [eauto | done].
    + intros ws s Hw [H | (s0 & H & ->)]%Hl; simpl; eauto.
    + intros ws s [H | (s0 & H & ->)]%Hl; simpl; eauto.
    + intros ws s [H | (s0 & H & ->)]%Hl; simpl; [eauto |]. intros _. by right.
Qed.

Lemma page_run (tr : list Event) (st : State) : Inv st → Inv (run tr st).
Proof.
  revert st. induction tr as [| e tr IH]; intros st HI; [done |].
  apply IH. by apply page_step.
Qed.

Lemma page_reachable (tr : list Event) : Inv (run tr init).
Proof. apply page_run, page_init. Qed.

Lemma recording_refs (st : State) :
  Inv st → isRecording st = true →
  ∃ ws m, websocketRef st = Some ws ∧ mediaStreamRef st = Some m ∧
          is_Some (sockets st !! ws) ∧ is_Some (streams st !! m).
Proof.
  intros HI Hr. pose proof (inv_recording _ HI Hr) as Hw.
  destruct (websocketRef st) as [ws |] eqn:Ews; [| done].
  destruct (mediaStreamRef st) as [m |] eqn:Em.
  - exists ws, m. split_and!; try done; apply lookup_lt_is_Some.
    + by apply (inv_ws _ HI).
    + by apply (inv_media _ HI).
  - apply (inv_both _ HI) in Em. congruence.
Qed.

(** X11: the two refs are set together and cleared together, and while the
    page shows that it is recording they hold a socket and a stream that
    exist. *)
Theorem refs_are_set_and_cleared_together (tr : list Event) :
  let st := run tr init in
  (websocketRef st = None ↔ mediaStreamRef st = None) ∧
  (isRecording st = true →
   ∃ ws m, websocketRef st = Some ws ∧ mediaStreamRef st = Some m ∧
           is_Some (sockets st !! ws) ∧ is_Some (streams st !! m)).
Proof.
  intros st. assert (HI : Inv st) by apply page_reachable. split; [apply HI |].
  by apply recording_refs.
Qed.

(** X12: the page never sends an empty chunk, never sends on a socket that
    has not opened yet, and calls [close] on a socket at most once. *)
Theorem chunks_sent_are_not_empty (tr : list Event) (ws : nat) (s : Socket) :
  sockets (run tr init) !! ws = Some s →
  Forall (λ d, d ≠ []) (sent s) ∧
  (readyState s = CONNECTING → sent s = []) ∧
  closeCalls s ≤ 1.
Proof.
  intros Hs. pose proof (page_reachable tr) as HI. split_and!.
  - by eapply (inv_chunks _ HI).
  - by eapply (inv_connecting _ HI).
  - by eapply (inv_closed_once _ HI).
Qed.

Lemma chunks_sent_are_not_empty_witness :
  Forall (λ d : Data, d ≠ []) [[Byte.x01]; [Byte.x02]] ∧
  sockets (run session init) !! 1 =
    Some (mkSocket "ws://localhost:8080" OPEN [[Byte.x01]; [Byte.x02]] 0).
Proof.
  split; [| reflexivity].
  apply (chunks_sent_are_not_empty session 1
           (mkSocket "ws://localhost:8080" OPEN [[Byte.x01]; [Byte.x02]] 0)).
  reflexivity.
Defined.

(** A socket that is closing or closed gets nothing more. *)
Lemma finished_frozen (e : Event) (st : State) (ws : nat) (s : Socket) :
  sockets st !! ws = Some s → finished s →
  ∃ s', sockets (step e st) !! ws = Some s' ∧ finished s' ∧ sent s' = sent s.
Proof.
  intros Hs Hf. destruct e as [| tracks outcome | dom | r chunk | w | w]; simpl.
  - destruct (isRecording st); [| eauto]. unfold stopStreaming. simpl.
    destruct (websocketRef st) as [w |]; [| eauto].
    destruct (decide (w = ws)) as [-> | Hne].
    + rewrite list_lookup_alter_eq, Hs. simpl. eexists. split; [done |].
      split; [apply finished_close_called | done].
    + rewrite list_lookup_alter_ne by done. eauto.
  - destruct (pendingMedia st); [eauto |]. exists s.
    split; [| done]. destruct outcome; simpl; (rewrite lookup_app_l; [done |]);
      by eapply lookup_lt_Some.
  - destruct (pendingMedia st); eauto.
  - destruct (recorders st !! r) as [rec |]; [| eauto]. unfold ondataavailable.
    destruct (bool_decide (0 < length chunk)); simpl; [| eauto].
    unfold is_open. destruct (sockets st !! target rec) as [s0 |] eqn:Hs0; [| eauto].
    destruct (bool_decide (readyState s0 = OPEN)) eqn:Ho; [| eauto]. simpl.
    destruct (decide (target rec = ws)) as [E | Hne].
    + rewrite E in Hs0. rewrite Hs in Hs0. injection Hs0 as <-.
      apply bool_decide_eq_true in Ho. destruct Hf; congruence.
    + rewrite list_lookup_alter_ne by done. eauto.
  - destruct (decide (w = ws)) as [-> | Hne].
    + rewrite list_lookup_alter_eq, Hs. simpl. rewrite decide_False; [eauto |].
      destruct Hf; congruence.
    + rewrite list_lookup_alter_ne by done. eauto.
  - destruct (decide (w = ws)) as [-> | Hne].
    + rewrite list_lookup_alter_eq, Hs. simpl. eexists. split; [done |].
      split; [by right | done].
    + rewrite list_lookup_alter_ne by done. eauto.
Qed.

Lemma finished_frozen_run (tr : list Event) (st : State) (ws : nat) (s : Socket) :
  sockets st !! ws = Some s → finished s →
  ∃ s', sockets (run tr st) !! ws = Some s' ∧ finished s' ∧ sent s' = sent s.
Proof.
  revert st s. induction tr as [| e tr IH]; intros st s Hs Hf; [eauto |].
  destruct (finished_frozen e st ws s Hs Hf) as (s1 & Hs1 & Hf1 & E1).
  destruct (IH (step e st) s1 Hs1 Hf1) as (s2 & Hs2 & Hf2 & E2).
  exists s2. split_and!; [done | done | congruence].
Qed.

(** An object that no ref holds is never touched by [stopStreaming], and no
    ref will hold it again. *)
Lemma unreferenced_socket (e : Event) (st : State) (ws : nat) (s : Socket) :
  sockets st !! ws = Some s → websocketRef st ≠ Some ws →
  ∃ s', sockets (step e st) !! ws = Some s' ∧ closeCalls s' = closeCalls s ∧
        websocketRef (step e st) ≠ Some ws.
Proof.
  intros Hs Hr. destruct e as [| tracks outcome | dom | r chunk | w | w]; simpl.
  - destruct (isRecording st); [| eauto]. unfold stopStreaming. simpl.
    destruct (websocketRef st) as [w |]; [| eauto].
    rewrite list_lookup_alter_ne by congruence. eauto.
  - destruct (pendingMedia st); [eauto |]. exists s.
    apply lookup_lt_Some in Hs as Hlt.
    destruct outcome; simpl; (rewrite lookup_app_l by done);
      (split_and!; [done | done |]); intros [= E]; lia.
  - destruct (pendingMedia st); eauto.
  - destruct (recorders st !! r) as [rec |]; [| eauto]. unfold ondataavailable.
    destruct (bool_decide (0 < length chunk) && is_open st (target rec)); [| eauto]. simpl.
    destruct (decide (target rec = ws)) as [-> | Hne].
    + rewrite list_lookup_alter_eq, Hs. simpl. eauto.
    + rewrite list_lookup_alter_ne by done. eauto.
  - destruct (decide (w = ws)) as [-> | Hne].
    + rewrite list_lookup_alter_eq, Hs. simpl. case_decide; eauto.
    + rewrite list_lookup_alter_ne by done. eauto.
  - destruct (decide (w = ws)) as [-> | Hne].
    + rewrite list_lookup_alter_eq, Hs. simpl. eauto.
    + rewrite list_lookup_alter_ne by done. eauto.
Qed.

Lemma unreferenced_stream (e : Event) (st : State) (m : nat) (l : MediaStream) :
  streams st !! m = Some l → mediaStreamRef st ≠ Some m →
  streams (step e st) !! m = Some l ∧ mediaStreamRef (step e st) ≠ Some m.
Proof.
  intros Hs Hr. destruct e as [| tracks outcome | dom | r chunk | w | w]; simpl; try done.
  - destruct (isRecording st); [| done]. unfold stopStreaming. simpl.
    destruct (mediaStreamRef st) as [m' |]; [| done].
    by rewrite list_lookup_alter_ne by congruence.
  - destruct (pendingMedia st); [done |]. apply lookup_lt_Some in Hs as Hlt.
    destruct outcome; simpl; (rewrite lookup_app_l by done);
      (split; [done |]); intros [= E]; lia.
  - by destruct (pendingMedia st).
  - destruct (recorders st !! r) as [rec |]; [| done]. unfold ondataavailable.
    by destruct (bool_decide (0 < length chunk) && is_open st (target rec)).
Qed.

Lemma unreferenced_stream_run (tr : list Event) (st : State) (m : nat) (l : MediaStream) :
  streams st !! m = Some l → mediaStreamRef st ≠ Some m →
  streams (run tr st) !! m = Some l.
Proof.
  revert st. induction tr as [| e tr IH]; intros st Hs Hr; [done |].
  destruct (unreferenced_stream e st m l Hs Hr). by apply IH.
Qed.

(** X13: a click while the page is recording clears [isRecording] and both
    refs, calls [close] on the socket the ref held and stops every track of
    the stream the other ref held; whatever happens afterwards, nothing more
    is sent on that socket, although its recorder still has its handler, and
    the tracks stay stopped. *)
Theorem stop_silences_the_socket (tr tr' : list Event) :
  let st := run tr init in
  isRecording st = true →
  let st' := step Click st in
  isRecording st' = false ∧ websocketRef st' = None ∧ mediaStreamRef st' = None ∧
  (∃ ws s0 s1, websocketRef st = Some ws ∧ sockets st !! ws = Some s0 ∧
     sockets st' !! ws = Some (close_called s0) ∧ closeCalls (close_called s0) = 1 ∧
     sockets (run tr' st') !! ws = Some s1 ∧ sent s1 = sent s0 ∧ finished s1) ∧
  (∃ m l, mediaStreamRef st = Some m ∧ streams st !! m = Some l ∧
     streams (run tr' st') !! m = Some ((λ _, false) <$> l)).
Proof.
  intros st Hr st'. assert (HI : Inv st) by apply page_reachable.
  destruct (recording_refs st HI Hr) as (ws & m & Hw & Hm & [s0 Hs0] & [l Hl]).
  assert (Est : st' = stopStreaming st) by (unfold st'; simpl; by rewrite Hr).
  split_and!; try by rewrite Est.
  - assert (Hs' : sockets st' !! ws = Some (close_called s0)).
    { rewrite Est. unfold stopStreaming. simpl. by rewrite Hw, list_lookup_alter_eq, Hs0. }
    destruct (finished_frozen_run tr' st' ws (close_called s0) Hs')
      as (s1 & Hs1 & Hf1 & E1); [apply finished_close_called |].
    exists ws, s0, s1. split_and!; try done.
    simpl. by rewrite (inv_ref_unclosed _ HI ws s0).
  - exists m, l. split_and!; try done. apply unreferenced_stream_run.
    + rewrite Est. unfold stopStreaming. simpl. by rewrite Hm, list_lookup_alter_eq, Hl.
    + by rewrite Est.
Qed.

Lemma stop_silences_the_socket_witness :
  isRecording (step Click (run session init)) = false ∧
  ∃ m l, mediaStreamRef (run session init) = Some m ∧
         streams (run session init) !! m = Some l ∧
         streams (run [DataAvailable 0 [Byte.x03]; Click; MediaDenied false]
                    (step Click (run session init))) !! m = Some ((λ _, false) <$> l).
Proof.
  destruct (stop_silences_the_socket session
              [DataAvailable 0 [Byte.x03]; Click; MediaDenied false])
    as (H1 & _ & _ & _ & H2).
  - reflexivity.
  - split; [exact H1 | exact H2].
Defined.

(** X14: [stopStreaming] releases only what the refs hold at that moment.
    A socket that the ref does not hold, because a later start has
    overwritten the ref, is never closed by the page, and a stream that the
    other ref does not hold keeps its tracks as they are. *)
Theorem overwritten_objects_are_never_released (tr tr' : list Event) :
  let st := run tr init in
  (∀ ws s, sockets st !! ws = Some s → websocketRef st ≠ Some ws →
     ∃ s', sockets (run tr' st) !! ws = Some s' ∧ closeCalls s' = closeCalls s) ∧
  (∀ m l, streams st !! m = Some l → mediaStreamRef st ≠ Some m →
     streams (run tr' st) !! m = Some l).
Proof.
  intros st. split.
  - generalize st. clear st. induction tr' as [| e tr' IH]; intros st ws s Hs Hr; [eauto |].
    destruct (unreferenced_socket e st ws s Hs Hr) as (s1 & Hs1 & E1 & Hr1).
    destruct (IH (step e st) ws s1 Hs1 Hr1) as (s2 & Hs2 & E2).
    exists s2. split; [done | congruence].
  - intros m l. apply unreferenced_stream_run.
Qed.

End SiteProofs.
